(** * Perplexity enrichment flow of playground-map

    A shallow embedding of [fetchPerplexityInsights] (the Enrichment Fetcher)
    and [fetchPerplexityInsightsWithCache] (the Cache-Aware Wrapper), with
    the parts of the JavaScript platform they rely on: strings as sequences
    of UTF-16 code units, the two regular expressions of the extraction step
    as backtracking matchers, [JSON.parse], object spread, and the
    environment, the abort signal, the network and the cache as an explicit
    world threaded through a state-and-exception monad. *)

From Stdlib Require Import NArith String Ascii DecimalString.
From stdpp Require Import gmap list.

Set Warnings "-register-all".
Local Open Scope N_scope.

(** ** JavaScript strings *)

(** A JavaScript string is a finite sequence of UTF-16 code units. *)
Abbreviation jsstring := (list N).

(** The code units of an ASCII literal. *)
Definition js (s : string) : jsstring :=
  map N_of_ascii (list_ascii_of_string s).
Arguments js s%_string.

(** The same, with every occurrence of the code unit [q] in the literal
    standing for a double quote (code unit 34). *)
Definition quoted (q : N) (s : string) : jsstring :=
  map (fun c => if c =? q then 34 else c) (js s).
Arguments quoted q%_N s%_string.

(** JSON texts are written with an apostrophe for each double quote. *)
Definition jsq (s : string) : jsstring := quoted 39 s.
Arguments jsq s%_string.

Definition jsstring_eqb (a b : jsstring) : bool := bool_decide (a = b).

(** ** Regular expressions

    ECMAScript matches a pattern by backtracking: every pattern term is a
    matcher that takes the continuation for the rest of the pattern, and
    alternatives are tried in priority order.  The combinators below are
    those matchers for the terms the two patterns of the source use. *)

Section Backtracking.
Context {A : Type}.

(** What remains of the pattern, run on what remains of the input. *)
Definition cont : Type := jsstring -> option A.

(** One pattern character or class. *)
Definition chr (p : N -> bool) (k : cont) : cont :=
  fun s => match s with
           | c :: s' => if p c then k s' else None
           | [] => None
           end.

(** A sequence of pattern characters. *)
Fixpoint lit (ps : list (N -> bool)) (k : cont) : cont :=
  match ps with
  | [] => k
  | p :: ps' => chr p (lit ps' k)
  end.

(** [x*], greedy: one more [x] first, the rest of the pattern second. *)
Fixpoint star (p : N -> bool) (k : cont) (s : jsstring) : option A :=
  match s with
  | c :: s' =>
      if p c then
        match star p k s' with
        | Some r => Some r
        | None => k s
        end
      else k s
  | [] => k []
  end.

(** [x*?], lazy: the rest of the pattern first, one more [x] second. *)
Fixpoint star_lazy (p : N -> bool) (k : cont) (s : jsstring) : option A :=
  match k s with
  | Some r => Some r
  | None =>
      match s with
      | c :: s' => if p c then star_lazy p k s' else None
      | [] => None
      end
  end.

(** A capture group: the continuation receives what the group consumed. *)
Definition group (m : cont -> cont) (k : jsstring -> cont) : cont :=
  fun s => m (fun s' => k (take (length s - length s') s) s') s.

(** An unanchored match: the leftmost start position that succeeds. *)
Fixpoint search (m : cont) (s : jsstring) : option A :=
  match m s with
  | Some r => Some r
  | None =>
      match s with
      | [] => None
      | _ :: s' => search m s'
      end
  end.
End Backtracking.

(** [\s]: WhiteSpace and LineTerminator code units. *)
Definition is_space (c : N) : bool :=
  ((9 <=? c) && (c <=? 13)) || (c =? 32) || (c =? 160) || (c =? 5760)
  || ((8192 <=? c) && (c <=? 8202)) || (c =? 8232) || (c =? 8233)
  || (c =? 8239) || (c =? 8287) || (c =? 12288) || (c =? 65279).

(** [[\s\S]]: any code unit. *)
Definition any_char (c : N) : bool := is_space c || negb (is_space c).

(** A pattern character without the [i] flag. *)
Definition exactly (x : N) : N -> bool := fun c => c =? x.

(** An ASCII pattern character under the [i] flag (without [u]): both
    sides are canonicalised by upper-casing, and a code unit of 128 or more
    is never mapped below 128, so an ASCII letter matches its two cases
    only, and any other ASCII character itself only. *)
Definition is_lower (x : N) : bool := (97 <=? x) && (x <=? 122).
Definition is_upper (x : N) : bool := (65 <=? x) && (x <=? 90).
Definition ignore_case (x : N) : N -> bool :=
  fun c => (c =? x)
           || (is_lower x && (c =? x - 32))
           || (is_upper x && (c =? x + 32)).

Definition backtick : N := 96.
Definition lbrace : N := 123.
Definition rbrace : N := 125.

(** [/```json\s*([\s\S]*?)\s*```/i], giving capture group 1 of the match. *)
Definition re_json_fence : jsstring -> option jsstring :=
  search
    (lit (map ignore_case (js "```json"))
       (star is_space
          (group (star_lazy any_char)
             (fun g1 =>
                star is_space
                  (lit (map exactly (js "```")) (fun _ => Some g1)))))).

(** [/({[\s\S]*})/], giving capture group 1 of the match. *)
Definition re_braces : jsstring -> option jsstring :=
  search
    (group (fun k => chr (exactly lbrace)
                       (star any_char (chr (exactly rbrace) k)))
       (fun g1 _ => Some g1)).

(** Lines 92-96 of the fetcher:
    [jsonMatch = contentBlock.match(fence) || contentBlock.match(braces)],
    [content = jsonMatch ? jsonMatch[1] : ""]. *)
Definition jsonMatch (contentBlock : jsstring) : option jsstring :=
  match re_json_fence contentBlock with
  | Some m => Some m
  | None => re_braces contentBlock
  end.

Definition extract_content (contentBlock : jsstring) : jsstring :=
  match jsonMatch contentBlock with
  | Some g1 => g1
  | None => []
  end.

(** ** JavaScript values

    The values that [JSON.parse] can produce, and [undefined].  A number is
    kept as the literal it was read from: its IEEE double is never needed
    here.  An object is its list of own properties, each key once, in
    creation order (JavaScript enumerates integer-like keys first; nothing
    modelled here observes the order). *)

Inductive value : Type :=
| VUndefined
| VNull
| VBool (b : bool)
| VNumber (literal : jsstring)
| VString (s : jsstring)
| VArray (elements : list value)
| VObject (properties : list (jsstring * value)).

Abbreviation jsobject := (list (jsstring * value)).

(** [o[k]] on own properties. *)
Fixpoint obj_get (k : jsstring) (o : jsobject) : option value :=
  match o with
  | [] => None
  | (k', v) :: o' => if jsstring_eqb k k' then Some v else obj_get k o'
  end.

(** CreateDataProperty: overwrite in place, or append. *)
Fixpoint obj_set (k : jsstring) (v : value) (o : jsobject) : jsobject :=
  match o with
  | [] => [(k, v)]
  | (k', v') :: o' =>
      if jsstring_eqb k k' then (k, v) :: o' else (k', v') :: obj_set k v o'
  end.

(** The decimal form of an index, as a property key. *)
Definition decimal (i : nat) : jsstring :=
  js (NilZero.string_of_uint (Nat.to_uint i)).

(** [{...v}]: the own enumerable properties of [v]; a primitive other than
    a string has none. *)
Definition spread (v : value) : jsobject :=
  match v with
  | VObject o => o
  | VArray l => imap (fun i x => (decimal i, x)) l
  | VString s => imap (fun i c => (decimal i, VString [c])) s
  | VUndefined | VNull | VBool _ | VNumber _ => []
  end.

(** ** JSON.parse *)

Inductive parsed (A : Type) : Type :=
| Parsed (a : A) (rest : jsstring)
| Malformed
| OutOfFuel.
Arguments Parsed {A} a rest.
Arguments Malformed {A}.
Arguments OutOfFuel {A}.

(** JSON white space: tab, line feed, carriage return, space. *)
Definition is_json_ws (c : N) : bool :=
  (c =? 9) || (c =? 10) || (c =? 13) || (c =? 32).

Fixpoint skip_ws (s : jsstring) : jsstring :=
  match s with
  | c :: s' => if is_json_ws c then skip_ws s' else s
  | [] => []
  end.

Definition is_digit (c : N) : bool := (48 <=? c) && (c <=? 57).

Fixpoint digits (s : jsstring) : jsstring * jsstring :=
  match s with
  | c :: s' =>
      if is_digit c then let '(d, r) := digits s' in (c :: d, r) else ([], s)
  | [] => ([], [])
  end.

(** A number literal: an optional minus sign; then a single 0, or a digit
    from 1 to 9 and any digits; then optionally a point and one digit or
    more; then optionally e or E, an optional sign and one digit or more. *)
Definition number_sign (s : jsstring) : jsstring * jsstring :=
  match s with
  | c :: s' => if c =? 45 then ([c], s') else ([], s)
  | [] => ([], [])
  end.

Definition number_int (s : jsstring) : option (jsstring * jsstring) :=
  match s with
  | c :: s' =>
      if c =? 48 then Some ([c], s')
      else if is_digit c then let '(d, r) := digits s' in Some (c :: d, r)
      else None
  | [] => None
  end.

Definition number_frac (s : jsstring) : option (jsstring * jsstring) :=
  match s with
  | c :: s' =>
      if c =? 46 then
        match digits s' with
        | ([], _) => None
        | (d, r) => Some (c :: d, r)
        end
      else Some ([], s)
  | [] => Some ([], [])
  end.

Definition number_exp (s : jsstring) : option (jsstring * jsstring) :=
  match s with
  | e :: s' =>
      if (e =? 101) || (e =? 69) then
        let '(sg, s'') :=
          match s' with
          | c :: t => if (c =? 43) || (c =? 45) then ([c], t) else ([], s')
          | [] => ([], [])
          end in
        match digits s'' with
        | ([], _) => None
        | (d, r) => Some (e :: sg ++ d, r)
        end
      else Some ([], s)
  | [] => Some ([], [])
  end.

Definition parse_number (s : jsstring) : option (jsstring * jsstring) :=
  let '(sg, s1) := number_sign s in
  '(i, s2) ← number_int s1;
  '(f, s3) ← number_frac s2;
  '(e, s4) ← number_exp s3;
  Some (sg ++ i ++ f ++ e, s4).

Definition hex_digit (c : N) : option N :=
  if is_digit c then Some (c - 48)
  else if (97 <=? c) && (c <=? 102) then Some (c - 87)
  else if (65 <=? c) && (c <=? 70) then Some (c - 55)
  else None.

Definition escape (e : N) : option N :=
  if e =? 34 then Some 34          (* quote *)
  else if e =? 92 then Some 92     (* backslash *)
  else if e =? 47 then Some 47     (* slash *)
  else if e =? 98 then Some 8      (* b: backspace *)
  else if e =? 102 then Some 12    (* f: form feed *)
  else if e =? 110 then Some 10    (* n: line feed *)
  else if e =? 114 then Some 13    (* r: carriage return *)
  else if e =? 116 then Some 9     (* t: tab *)
  else None.

(** The characters of a string literal, after its opening quote. *)
Fixpoint parse_string_chars (s : jsstring) : option (jsstring * jsstring) :=
  match s with
  | [] => None
  | c :: s' =>
      if c =? 34 then Some ([], s')
      else if c =? 92 then
        match s' with
        | [] => None
        | e :: s'' =>
            if e =? 117 then
              match s'' with
              | h1 :: h2 :: h3 :: h4 :: r =>
                  a ← hex_digit h1; b ← hex_digit h2;
                  c ← hex_digit h3; d ← hex_digit h4;
                  '(t, r') ← parse_string_chars r;
                  Some (((a * 16 + b) * 16 + c) * 16 + d :: t, r')
              | _ => None
              end
            else
              x ← escape e;
              '(t, r') ← parse_string_chars s'';
              Some (x :: t, r')
        end
      else if c <? 32 then None
      else
        '(t, r') ← parse_string_chars s';
        Some (c :: t, r')
  end.

(** [s] starts with the literal [p]: what follows it. *)
Fixpoint strip_prefix (p s : jsstring) : option jsstring :=
  match p, s with
  | [], _ => Some s
  | x :: p', c :: s' => if c =? x then strip_prefix p' s' else None
  | _ :: _, [] => None
  end.

(** A JSON value at the head of [s].  Every call on a value, an array
    element or an object member spends one unit of fuel. *)
Fixpoint parse_value (fuel : nat) (s : jsstring) : parsed value :=
  match fuel with
  | O => OutOfFuel
  | S fuel' =>
      match s with
      | [] => Malformed
      | c :: s' =>
          if c =? 123 then                                   (* { *)
            match skip_ws s' with
            | [] => Malformed
            | c1 :: r =>
                if c1 =? 125 then Parsed (VObject []) r
                else parse_members fuel' (c1 :: r) []
            end
          else if c =? 91 then                               (* [ *)
            match skip_ws s' with
            | [] => Malformed
            | c1 :: r =>
                if c1 =? 93 then Parsed (VArray []) r
                else parse_elements fuel' (c1 :: r) []
            end
          else if c =? 34 then                               (* string *)
            match parse_string_chars s' with
            | Some (t, r) => Parsed (VString t) r
            | None => Malformed
            end
          else if (c =? 45) || is_digit c then
            match parse_number s with
            | Some (n, r) => Parsed (VNumber n) r
            | None => Malformed
            end
          else
            match strip_prefix (js "null") s with
            | Some r => Parsed VNull r
            | None =>
                match strip_prefix (js "true") s with
                | Some r => Parsed (VBool true) r
                | None =>
                    match strip_prefix (js "false") s with
                    | Some r => Parsed (VBool false) r
                    | None => Malformed
                    end
                end
            end
      end
  end

(** The elements of an array from the first one on; [acc] holds those
    read so far, last first. *)
with parse_elements (fuel : nat) (s : jsstring) (acc : list value)
  : parsed value :=
  match fuel with
  | O => OutOfFuel
  | S fuel' =>
      match parse_value fuel' s with
      | Parsed v r =>
          match skip_ws r with
          | [] => Malformed
          | c :: r' =>
              if c =? 44 then parse_elements fuel' (skip_ws r') (v :: acc)
              else if c =? 93 then Parsed (VArray (rev (v :: acc))) r'
              else Malformed
          end
      | Malformed => Malformed
      | OutOfFuel => OutOfFuel
      end
  end

(** The members of an object from the first one on; [acc] is the object
    built so far: a repeated key keeps its place and takes the last value. *)
with parse_members (fuel : nat) (s : jsstring) (acc : jsobject)
  : parsed value :=
  match fuel with
  | O => OutOfFuel
  | S fuel' =>
      match s with
      | [] => Malformed
      | q :: s' =>
          if q =? 34 then
            match parse_string_chars s' with
            | None => Malformed
            | Some (k, r) =>
                match skip_ws r with
                | [] => Malformed
                | c :: r' =>
                    if c =? 58 then
                      match parse_value fuel' (skip_ws r') with
                      | Parsed v r1 =>
                          match skip_ws r1 with
                          | [] => Malformed
                          | c1 :: r2 =>
                              if c1 =? 44 then
                                parse_members fuel' (skip_ws r2)
                                  (obj_set k v acc)
                              else if c1 =? 125 then
                                Parsed (VObject (obj_set k v acc)) r2
                              else Malformed
                          end
                      | Malformed => Malformed
                      | OutOfFuel => OutOfFuel
                      end
                    else Malformed
                end
            end
          else Malformed
      end
  end.

(** [JSON.parse(text)]: one value with white space around it and nothing
    else; [None] is the SyntaxError. *)
Definition JSON_parse_fuel (fuel : nat) (text : jsstring) : parsed value :=
  match parse_value fuel (skip_ws text) with
  | Parsed v r =>
      match skip_ws r with
      | [] => Parsed v []
      | _ :: _ => Malformed
      end
  | Malformed => Malformed
  | OutOfFuel => OutOfFuel
  end.

Definition JSON_parse (text : jsstring) : option value :=
  match JSON_parse_fuel (2 * length text + 2) text with
  | Parsed v _ => Some v
  | Malformed | OutOfFuel => None
  end.

(** ** Exceptions and property access *)

Inductive exn : Type :=
| Error (message : jsstring)          (* [new Error(message)] *)
| SyntaxError                         (* thrown by [JSON.parse] *)
| TypeError                           (* a property of undefined or null,
                                         or a call of what is no function *)
| Rejection (name message : jsstring). (* a rejection made by the platform *)

Inductive result (A : Type) : Type :=
| Return (a : A)
| Throw (e : exn).
Arguments Return {A} a.
Arguments Throw {A} e.

(** The array index that the key [k] denotes, below [n]. *)
Definition index_of_key (k : jsstring) (n : nat) : option nat :=
  find (fun i => jsstring_eqb (decimal i) k) (seq 0 n).

(** [v[k]] and [v.k].  Methods inherited from the prototypes are not values
    of this model; no key that the source reads ([choices], [0], [message],
    [content], [citations], [images]) names one. *)
Definition get_member (v : value) (k : jsstring) : result value :=
  match v with
  | VUndefined | VNull => Throw TypeError
  | VObject o => Return (default VUndefined (obj_get k o))
  | VArray l =>
      Return match index_of_key k (length l) with
             | Some i => default VUndefined (l !! i)
             | None =>
                 if jsstring_eqb k (js "length")
                 then VNumber (decimal (length l)) else VUndefined
             end
  | VString s =>
      Return match index_of_key k (length s) with
             | Some i => from_option (fun c => VString [c]) VUndefined (s !! i)
             | None =>
                 if jsstring_eqb k (js "length")
                 then VNumber (decimal (length s)) else VUndefined
             end
  | VBool _ | VNumber _ => Return VUndefined
  end.

(** ** The world

    What the two functions read and change besides their arguments: the
    process environment, the time (counted in suspension points), the
    network, the cache and, for the statements below, the log of the
    input and output performed. *)

(** An abort signal, given by the time from which it is aborted, if ever:
    a caller can only abort while the function is suspended, and an
    aborted signal stays aborted. *)
Record AbortSignal : Type := { abort_at : option nat }.

(** The arguments of both functions: [{ address, name?, signal? }]. *)
Record Args : Type := {
  address : jsstring;
  name : option jsstring;
  signal : option AbortSignal
}.

(** Results of platform functions that are left uninterpreted. *)
Inductive lowercased : Type := toLowerCase (s : jsstring).
Inductive float : Type := parseFloat (s : jsstring).

Record Message : Type := { role : jsstring; content : jsstring }.

Record WebSearchOptions : Type := { search_context_size : jsstring }.

Record RequestBody : Type := {
  model : lowercased;
  temperature : float;
  return_images : bool;
  web_search_options : WebSearchOptions;
  messages : list Message
}.

(** The request of [fetch(url, init)]; [body] stands for its
    [JSON.stringify]. *)
Record Request : Type := {
  url : jsstring;
  method : jsstring;
  headers : list (jsstring * jsstring);
  body : RequestBody;
  req_signal : option AbortSignal
}.

(** A response: [ok], [statusText] and what [json()] settles to. *)
Record Response : Type := {
  ok : bool;
  statusText : jsstring;
  json : result value
}.

Inductive Event : Type :=
| NetworkCall (r : Request)
| CacheRead (addr : jsstring)
| CacheWrite (addr : jsstring) (insights : jsobject).

Record World : Type := {
  env : gmap jsstring jsstring;
  now : nat;
  network : nat -> Request -> result Response;
  cache : gmap jsstring jsobject;
  trace : list Event
}.

Definition tick (w : World) : World :=
  {| env := env w; now := S (now w); network := network w;
     cache := cache w; trace := trace w |}.

Definition log (e : Event) (w : World) : World :=
  {| env := env w; now := now w; network := network w;
     cache := cache w; trace := trace w ++ [e] |}.

Definition store (addr : jsstring) (o : jsobject) (w : World) : World :=
  {| env := env w; now := now w; network := network w;
     cache := <[addr := o]> (cache w); trace := trace w |}.

(** ** Computations *)

Definition M (A : Type) : Type := World -> result A * World.

Definition ret {A} (a : A) : M A := fun w => (Return a, w).

Definition throw {A} (e : exn) : M A := fun w => (Throw e, w).

Definition bind {A B} (m : M A) (k : A -> M B) : M B :=
  fun w => match m w with
           | (Return a, w') => k a w'
           | (Throw e, w') => (Throw e, w')
           end.

Notation "'let*' x ':=' m 'in' k" := (bind m (fun x => k))
  (at level 10, x name, m at level 200, k at level 200).

Definition lift {A} (r : result A) : M A := fun w => (r, w).

(** [await p]: the function is suspended until [p] settles, and resumed
    one suspension point later. *)
Definition await {A} (p : M A) : M A :=
  fun w => let '(r, w') := p w in (r, tick w').

(** [signal?.aborted], as a condition. *)
Definition is_aborted (s : option AbortSignal) (w : World) : bool :=
  match s with
  | Some sg =>
      match abort_at sg with
      | Some t => bool_decide (t <= now w)%nat
      | None => false
      end
  | None => false
  end.

Definition aborted (s : option AbortSignal) : M bool :=
  fun w => (Return (is_aborted s w), w).

(** [process.env[k]]. *)
Definition process_env (k : jsstring) : M (option jsstring) :=
  fun w => (Return (env w !! k), w).

(** A string that may be undefined, as a condition. *)
Definition truthy (s : option jsstring) : bool :=
  match s with
  | Some (_ :: _) => true
  | Some [] | None => false
  end.

(** [s || d]. *)
Definition or_default (s : option jsstring) (d : jsstring) : jsstring :=
  match s with
  | Some (c :: t) => c :: t
  | Some [] | None => d
  end.

(** [fetch(url, init)]: one network call, settled by the network. *)
Definition fetch (r : Request) : M Response :=
  fun w => (network w (now w) r, log (NetworkCall r) w).

(** [response.json()]. *)
Definition response_json (r : Response) : M value := lift (json r).

(** Modelled from the spec: the cache backend ([@/lib/cache], with
    [fetchPerplexityInsightsFromCache] and [savePerplexityInsightsToCache])
    is not among the sources.  Its contract is two operations,
    [fetch(address) -> Record | absent] and [save(address, record) -> ack],
    on entries keyed by the address, created by a save and read by later
    lookups. *)
Definition fetchPerplexityInsightsFromCache (addr : jsstring)
  : M (option jsobject) :=
  fun w => (Return (cache w !! addr), log (CacheRead addr) w).

Definition savePerplexityInsightsToCache (addr : jsstring) (insights : jsobject)
  : M unit :=
  fun w => (Return tt, store addr insights (log (CacheWrite addr insights) w)).

(** ** The prompt (lines 26-64) *)

Definition prompt_task : jsstring :=
  js "
Task: Find information about a children's playground at or near the specified ".

Definition prompt_criteria : jsstring :=
  js ".

Location Criteria:
- The playground must be located at one of the following:
  - Precisely at the address: ".

(** The rest of the template, with a tilde for each double quote. *)
Definition prompt_rest : jsstring :=
  quoted 126 "
  - Within a park, recreation center, community center, school grounds, or public space at this exact address
  - Part of a sports complex or facility at this address
- If no playground is found at the exact address, check for playgrounds within a 0.1-mile radius, but only include them if they are clearly associated with a named park or facility.

Strictness:
- Focus strictly on playgrounds meeting the location criteria.
- If no playground is found with high confidence, return the 'not found' structure.
- Do not include information about playgrounds at different addresses unless they are within the 0.1-mile radius and clearly relevant.

Image Requirements:
- Return images only if they depict the actual playground, its equipment (e.g., slides, swings, climbing structures), or the immediate playground setting.
- Exclude irrelevant images such as generic parks, landscapes, or unrelated facilities.
- If no relevant images are available, return an empty image array.

Desired Output Format:
Return a JSON object with the following fields:
{
  ~name~: ~string~, // The name of the playground or the facility/park containing it (e.g., ~Sunset Park Playground~)
  ~description~: ~string~, // A concise 2-sentence description of the playground, focusing on key features (e.g., types of equipment, age suitability, safety features, shade availability, or atmosphere)
  ~features~: [~string~], // A list of specific playground features, using OpenStreetMap playground tags (e.g., ~slide~, ~swing~, ~climbing_frame~, ~sandpit~, ~seesaw~). Refer to https://wiki.openstreetmap.org/wiki/Key:playground for valid tags
  ~parking~: ~string~ // A brief description of nearby parking options (e.g., ~Street parking available nearby~ or ~Dedicated lot at park entrance~)
}

If no playground is found with high confidence, return:
{
  ~name~: null,
  ~description~: null,
  ~features~: null,
  ~parking~: null
}

Return only the valid JSON object without any additional text or markdown.
".

Definition dquote : jsstring := [34].

Definition prompt (addr : jsstring) (nm : option jsstring) : jsstring :=
  prompt_task
  ++ (if truthy nm
      then js "location known as " ++ dquote ++ default [] nm ++ dquote
      else js "address")
  ++ prompt_criteria
  ++ addr
  ++ (if truthy nm
      then js " (known as " ++ dquote ++ default [] nm ++ dquote ++ js ")"
      else [])
  ++ prompt_rest.

(** ** The Enrichment Fetcher (lines 8-103) *)

Definition api_key_missing : jsstring := js "Perplexity API key is missing".

Definition api_error (status_text : jsstring) : jsstring :=
  js "Perplexity AI API error: " ++ status_text.

Definition fetchPerplexityInsights (args : Args) : M (option jsobject) :=
  let* is_cancelled := aborted (signal args) in
  if is_cancelled then ret None else
  let* apiKey := process_env (js "PERPLEXITY_API_KEY") in
  if negb (truthy apiKey) then throw (Error api_key_missing) else
  let* env_model := process_env (js "PERPLEXITY_MODEL") in
  let* env_temperature := process_env (js "PERPLEXITY_TEMPERATURE") in
  let* env_context := process_env (js "PERPLEXITY_SEARCH_CONTEXT_SIZE") in
  let requestBody :=
    {| model := toLowerCase (or_default env_model (js "sonar"));
       temperature := parseFloat (or_default env_temperature (js "0.17"));
       return_images := true;
       web_search_options :=
         {| search_context_size := or_default env_context (js "low") |};
       messages :=
         [ {| role := js "user";
              content := prompt (address args) (name args) |} ] |} in
  let* response :=
    await (fetch
      {| url := js "https://api.perplexity.ai/chat/completions";
         method := js "POST";
         headers :=
           [ (js "Content-Type", js "application/json");
             (js "Authorization", js "Bearer " ++ default [] apiKey) ];
         body := requestBody;
         req_signal := signal args |}) in
  if negb (ok response) then throw (Error (api_error (statusText response)))
  else
  let* data := await (response_json response) in
  let* choices := lift (get_member data (js "choices")) in
  let* choice := lift (get_member choices (js "0")) in
  let* message := lift (get_member choice (js "message")) in
  let* contentBlock := lift (get_member message (js "content")) in
  match contentBlock with
  | VString block =>
      match JSON_parse (extract_content block) with
      | None => throw SyntaxError
      | Some parsed_content =>
          let* citations := lift (get_member data (js "citations")) in
          let* images := lift (get_member data (js "images")) in
          ret (Some (obj_set (js "images") images
                       (obj_set (js "sources") citations
                          (spread parsed_content))))
      end
  | _ => throw TypeError       (* [contentBlock.match] is no function *)
  end.

(** ** The Cache-Aware Wrapper (lines 106-139) *)

Definition fetchPerplexityInsightsWithCache (args : Args)
  : M (option jsobject) :=
  let* is_cancelled := aborted (signal args) in
  if is_cancelled then ret None else
  let* cachedInsights :=
    await (fetchPerplexityInsightsFromCache (address args)) in
  match cachedInsights with
  | Some cached => ret (Some cached)
  | None =>
      let* freshInsights := await (fetchPerplexityInsights args) in
      let* cancelled_since := aborted (signal args) in
      match cancelled_since, freshInsights with
      | false, Some fresh =>
          let* saved :=
            await (savePerplexityInsightsToCache (address args) fresh) in
          ret (Some fresh)
      | _, _ => ret None     (* [signal?.aborted || !freshInsights] *)
      end
  end.

(** ** What the statements speak of *)

(** The credential, [process.env.PERPLEXITY_API_KEY]. *)
Definition credential (w : World) : option jsstring :=
  env w !! js "PERPLEXITY_API_KEY".

(** The request that the fetcher sends from the world [w]. *)
Definition request_sent (args : Args) (w : World) : Request :=
  {| url := js "https://api.perplexity.ai/chat/completions";
     method := js "POST";
     headers :=
       [ (js "Content-Type", js "application/json");
         (js "Authorization", js "Bearer " ++ default [] (credential w)) ];
     body :=
       {| model :=
            toLowerCase
              (or_default (env w !! js "PERPLEXITY_MODEL") (js "sonar"));
          temperature :=
            parseFloat
              (or_default (env w !! js "PERPLEXITY_TEMPERATURE") (js "0.17"));
          return_images := true;
          web_search_options :=
            {| search_context_size :=
                 or_default (env w !! js "PERPLEXITY_SEARCH_CONTEXT_SIZE")
                   (js "low") |};
          messages :=
            [ {| role := js "user";
                 content := prompt (address args) (name args) |} ] |};
     req_signal := signal args |}.

(** The world in which the fetcher resumes after its network call. *)
Definition after_fetch (args : Args) (w : World) : World :=
  tick (log (NetworkCall (request_sent args w)) w).

(** The world in which the wrapper resumes after its cache lookup. *)
Definition after_lookup (args : Args) (w : World) : World :=
  tick (log (CacheRead (address args)) w).

Definition result_bind {A B} (r : result A) (k : A -> result B) : result B :=
  match r with
  | Return a => k a
  | Throw e => Throw e
  end.

(** [data.choices[0].message.content]. *)
Definition envelope_content (data : value) : result value :=
  result_bind (get_member data (js "choices")) (fun choices =>
  result_bind (get_member choices (js "0")) (fun choice =>
  result_bind (get_member choice (js "message")) (fun message =>
  get_member message (js "content")))).

(** The cache writes of a log. *)
Definition cache_writes (t : list Event) : list (jsstring * jsobject) :=
  omap (fun e => match e with
                 | CacheWrite a o => Some (a, o)
                 | _ => None
                 end) t.

(** The network calls of a log. *)
Definition network_calls (t : list Event) : list Request :=
  omap (fun e => match e with
                 | NetworkCall r => Some r
                 | _ => None
                 end) t.

(** [needle] occurs in [s]. *)
Definition contains (s needle : jsstring) : Prop :=
  exists pre post, s = pre ++ needle ++ post.

(** What the wrapper does with the outcome of the fetch. *)
Definition settle (args : Args) (outcome : result (option jsobject) * World)
  : result (option jsobject) * World :=
  match outcome with
  | (Throw e, w2) => (Throw e, tick w2)
  | (Return fresh, w2) =>
      match is_aborted (signal args) (tick w2), fresh with
      | false, Some record =>
          (Return (Some record),
           tick (store (address args) record
                   (log (CacheWrite (address args) record) (tick w2))))
      | _, _ => (Return None, tick w2)
      end
  end.

(** An opening fence: three backticks and [json] in either case. *)
Definition fence_opening (cs : jsstring) : Prop :=
  Forall2 (fun x c => ignore_case x c = true) (js "```json") cs.

(** [g] lies in [block] between an opening fence and three backticks, with
    white space only between it and either of them. *)
Definition between_fences (block g : jsstring) : Prop :=
  exists pre opening ws1 ws2 post,
    block = pre ++ opening ++ ws1 ++ g ++ ws2 ++ js "```" ++ post
    /\ fence_opening opening
    /\ Forall (fun c => is_space c = true) ws1
    /\ Forall (fun c => is_space c = true) ws2.

(** [block] is a fenced block around [text]: an opening fence, white
    space, [text], white space, three backticks (and whatever follows). *)
Definition fenced_from_start (block text : jsstring) : Prop :=
  exists opening ws1 ws2 post,
    block = opening ++ ws1 ++ text ++ ws2 ++ js "```" ++ post
    /\ fence_opening opening
    /\ Forall (fun c => is_space c = true) ws1
    /\ Forall (fun c => is_space c = true) ws2.

(** A text is valid JSON when the parser, given fuel enough, reads one value
    from it and nothing else. *)
Definition valid_json (text : jsstring) : Prop :=
  exists fuel v, JSON_parse_fuel fuel text = Parsed v [].

(** ** The fallback as the specification words it

    For comparison with [re_braces]: "the first top-level brace-delimited
    object found anywhere in the text", read as the text from the first
    opening brace whose braces balance to the brace that closes it. *)

(** The shortest prefix of [s] that closes [depth] braces and one more. *)
Fixpoint balanced_run (depth : nat) (s : jsstring) : option jsstring :=
  match s with
  | [] => None
  | c :: s' =>
      if c =? lbrace then cons c <$> balanced_run (S depth) s'
      else if c =? rbrace then
        match depth with
        | O => Some [c]
        | S d => cons c <$> balanced_run d s'
        end
      else cons c <$> balanced_run depth s'
  end.

Fixpoint spec_first_top_level_object (s : jsstring) : option jsstring :=
  match s with
  | [] => None
  | c :: s' =>
      if c =? lbrace then
        match balanced_run 0 s' with
        | Some o => Some (c :: o)
        | None => spec_first_top_level_object s'
        end
      else spec_first_top_level_object s'
  end.

Definition spec_extract_content (block : jsstring) : jsstring :=
  match re_json_fence block with
  | Some g => g
  | None => default [] (spec_first_top_level_object block)
  end.

(** ** Sample inputs *)

Definition sample_address : jsstring := js "2901 Sunset Blvd, Los Angeles".

Definition live_signal : AbortSignal := {| abort_at := None |}.
Definition cancelled_signal : AbortSignal := {| abort_at := Some 0%nat |}.

Definition sample_args (sg : option AbortSignal) : Args :=
  {| address := sample_address; name := Some (js "Sunset Park");
     signal := sg |}.

(** A response envelope with the given message content. *)
Definition sample_citations : value :=
  VArray [VString (js "https://parks.example.org/sunset")].
Definition sample_images : value :=
  VArray [VObject [(js "image_url", VString (js "https://img.example.org/1.jpg"))]].

Definition envelope (block : jsstring) : value :=
  VObject
    [ (js "id", VString (js "c0ffee"));
      (js "choices",
        VArray
          [ VObject
              [ (js "index", VNumber (js "0"));
                (js "message",
                  VObject [ (js "role", VString (js "assistant"));
                            (js "content", VString block) ]) ] ]);
      (js "citations", sample_citations);
      (js "images", sample_images) ].

Definition ok_response (block : jsstring) : Response :=
  {| ok := true; statusText := js "OK"; json := Return (envelope block) |}.

Definition error_response : Response :=
  {| ok := false; statusText := js "Too Many Requests";
     json := Return (VObject [(js "error", VString (js "rate limit"))]) |}.

(** A world at time 0 with an empty cache and an empty log. *)
Definition sample_world (key : option jsstring) (answer : result Response)
  : World :=
  {| env := match key with
            | Some k => {[ js "PERPLEXITY_API_KEY" := k ]}
            | None => ∅
            end;
     now := 0%nat;
     network := fun _ _ => answer;
     cache := ∅;
     trace := [] |}.

Definition sample_key : option jsstring := Some (js "pplx-0123456789").

(** The content of the first example of the spec: an object in a fenced
    block. *)
Definition sunset_members : jsstring :=
  jsq "'name':'Sunset Park Playground','description':'...','features':['slide','swing'],'parking':'Street parking'".

Definition sunset_object : jsstring := lbrace :: sunset_members ++ [rbrace].

Definition fenced_block : jsstring :=
  js "```json
" ++ sunset_object ++ js "
```".

(** The content of the second example of the spec: bare text with the
    object of a playground that was not found. *)
Definition not_found_object : jsstring :=
  jsq "{'name':null,'description':null,'features':null,'parking':null}".

Definition bare_block : jsstring := js "Here you go: " ++ not_found_object.

(** A content in which a second pair of braces follows that object. *)
Definition two_braces_block : jsstring :=
  js "Not found: " ++ not_found_object
  ++ js " (no playground at {address})".

Definition sample_record : jsobject :=
  [ (js "name", VString (js "Sunset Park Playground"));
    (js "description", VString (js "..."));
    (js "features", VArray [VString (js "slide"); VString (js "swing")]);
    (js "parking", VString (js "Street parking"));
    (js "sources", sample_citations);
    (js "images", sample_images) ].

(** The signal of a caller who aborts while the wrapper waits for the
    cache: the fetch then gives no record. *)
Definition signal_aborted_during_lookup : AbortSignal :=
  {| abort_at := Some 1%nat |}.

(** The signal of a caller who aborts while the fetcher waits for the
    network, which answers all the same. *)
Definition signal_aborted_during_fetch : AbortSignal :=
  {| abort_at := Some 2%nat |}.

(** An object with three backticks inside a string, and the fenced block
    around it. *)
Definition backticks_object : jsstring :=
  jsq "{'name':'Sunset Park Playground','description':'Look for the ```Sunset``` sign.','features':['slide','swing'],'parking':'Street parking'}".

Definition backticks_block : jsstring :=
  js "```json
" ++ backticks_object ++ js "
```".

(** ** The debounce hook ([useDebounce])

    The hook keeps one cell, [timerRef], across renders.  Timers are those
    of the platform: [setTimeout] hands out a fresh handle and queues the
    callback for the time that is [delay] milliseconds away, [clearTimeout]
    takes a handle off the queue, and the event loop runs the callbacks
    that are due, in the order they were set.  The delay is a whole number
    of milliseconds.  A handle is a positive number, hence never falsy.  The queue holds the timers of this hook
    only, and [fn] is taken not to call the debounced function itself: a
    call of [fn] is recorded with its time and arguments. *)

Section Debounce.
Context {F A : Type}.

Record Timer : Type := {
  timer_id : positive;
  due : nat;
  callback : F * A       (* [() => fn(...args)] *)
}.

Record Hook : Type := {
  clock : nat;
  next_timer : positive;
  timers : list Timer;
  timerRef : option positive;      (* [timerRef.current] *)
  calls : list (nat * (F * A))
}.

(** [useRef(null)], at the first render. *)
Definition mount : Hook :=
  {| clock := 0%nat; next_timer := 1%positive; timers := [];
     timerRef := None; calls := [] |}.

Definition setTimeout (cb : F * A) (delay : nat) (h : Hook)
  : positive * Hook :=
  (next_timer h,
   {| clock := clock h; next_timer := Pos.succ (next_timer h);
      timers := timers h
                ++ [ {| timer_id := next_timer h;
                        due := (clock h + delay)%nat;
                        callback := cb |} ];
      timerRef := timerRef h; calls := calls h |}).

Definition clearTimeout (id : positive) (h : Hook) : Hook :=
  {| clock := clock h; next_timer := next_timer h;
     timers := filter (fun t => timer_id t <> id) (timers h);
     timerRef := timerRef h; calls := calls h |}.

Definition set_timerRef (r : option positive) (h : Hook) : Hook :=
  {| clock := clock h; next_timer := next_timer h; timers := timers h;
     timerRef := r; calls := calls h |}.

(** The function that the hook returns, for the render with [fn] and
    [delay] (lines 24-31). *)
Definition debounced (fn : F) (delay : nat) (args : A) (h : Hook) : Hook :=
  let h1 := match timerRef h with
            | Some id => clearTimeout id h
            | None => h
            end in
  let '(id, h2) := setTimeout (fn, args) delay h1 in
  set_timerRef (Some id) h2.

(** The cleanup of the effect, run when the component unmounts
    (lines 15-20). *)
Definition unmount (h : Hook) : Hook :=
  match timerRef h with
  | Some id => set_timerRef None (clearTimeout id h)
  | None => h
  end.

(** The event loop runs the timers that are due. *)
Definition run_due (h : Hook) : Hook :=
  {| clock := clock h; next_timer := next_timer h;
     timers := filter (fun t => ~ (due t <= clock h)%nat) (timers h);
     timerRef := timerRef h;
     calls := calls h
              ++ map (fun t => (clock h, callback t))
                   (filter (fun t => (due t <= clock h)%nat) (timers h)) |}.

(** One millisecond passes. *)
Definition millisecond (h : Hook) : Hook :=
  run_due {| clock := S (clock h); next_timer := next_timer h;
             timers := timers h; timerRef := timerRef h;
             calls := calls h |}.

(** [dt] milliseconds pass. *)
Definition advance (dt : nat) (h : Hook) : Hook :=
  Nat.iter dt millisecond (run_due h).

(** What can happen to a mounted hook. *)
Inductive HookEvent : Type :=
| Call (fn : F) (delay : nat) (args : A)
| Wait (dt : nat)
| Unmount.

Definition hook_event (e : HookEvent) (h : Hook) : Hook :=
  match e with
  | Call fn delay args => debounced fn delay args h
  | Wait dt => advance dt h
  | Unmount => unmount h
  end.

Definition hook_run (es : list HookEvent) (h : Hook) : Hook :=
  foldl (fun h e => hook_event e h) h es.




(** At most one timer of the hook is pending, and [timerRef] holds its
    handle. *)
Definition one_pending (h : Hook) : Prop :=
  timers h = []
  \/ exists t, timers h = [t] /\ timerRef h = Some (timer_id t).
End Debounce.

Arguments Timer : clear implicits.
Arguments Hook : clear implicits.
Arguments HookEvent : clear implicits.
(** ** The page metadata ([generateMetadata], page.tsx lines 21-61)

    [SITE_NAME], [SITE_URL] and [UNNAMED_PLAYGROUND] come from
    [@/lib/constants] and [fetchPlaygroundByIdWithCache] from
    [@/lib/api/server], which are not among the sources: the constants are
    parameters, and the outcome of the fetch is an argument.  Of the
    playground only the fields that the function reads are kept. *)

Record Playground : Type := {
  playground_name : option jsstring;          (* null or a string *)
  playground_description : option jsstring
}.

Record OgImage : Type := {
  og_image_url : jsstring;
  og_image_width : N;
  og_image_height : N;
  og_image_alt : jsstring
}.

Record OpenGraph : Type := {
  og_title : jsstring;
  og_description : jsstring;
  og_images : list OgImage;
  og_type : jsstring;
  og_locale : jsstring;
  og_url : jsstring
}.

Record Metadata : Type := {
  title : jsstring;
  description : jsstring;
  openGraph : option OpenGraph
}.

Section PageMetadata.
Variables SITE_NAME SITE_URL UNNAMED_PLAYGROUND : jsstring.

(** [playground.name || UNNAMED_PLAYGROUND]. *)
Definition display_name (playground : Playground) : jsstring :=
  or_default (playground_name playground) UNNAMED_PLAYGROUND.

Definition generateMetadata
  (id : jsstring) (fetched : result (option Playground)) : result Metadata :=
  match fetched with
  | Throw e => Throw e
  | Return None =>
      Return
        {| title := js "Playground Not Found | " ++ SITE_NAME;
           description :=
             js "Looks like this playground took a swing break. Try another one for more fun!";
           openGraph := None |}
  | Return (Some playground) =>
      let name := display_name playground in
      let title := name ++ js " | " ++ SITE_NAME in
      let description :=
        or_default (playground_description playground)
          (js "Explore " ++ name ++ js " details, features, and location.") in
      Return
        {| title := title;
           description := description;
           openGraph :=
             Some
               {| og_title := title;
                  og_description := description;
                  og_images :=
                    [ {| og_image_url := js "/api/og/playgrounds/" ++ id;
                         og_image_width := 1200;
                         og_image_height := 630;
                         og_image_alt := name |} ];
                  og_type := js "website";
                  og_locale := js "en_US";
                  og_url := SITE_URL ++ js "/playgrounds/" ++ id |} |}
  end.
End PageMetadata.

(** [s] ends with [suffix]. *)
Definition ends_with (s sfx : jsstring) : Prop := exists pre, s = pre ++ sfx.

(** * Properties *)

(** ** The early exits *)

Lemma fetcher_cancelled (args : Args) (w : World) :
  is_aborted (signal args) w = true ->
  fetchPerplexityInsights args w = (Return None, w).
Proof.
  intros Hab. unfold fetchPerplexityInsights, bind, aborted.
  rewrite Hab. reflexivity.
Qed.

Lemma wrapper_cancelled (args : Args) (w : World) :
  is_aborted (signal args) w = true ->
  fetchPerplexityInsightsWithCache args w = (Return None, w).
Proof.
  intros Hab. unfold fetchPerplexityInsightsWithCache, bind, aborted.
  rewrite Hab. reflexivity.
Qed.

Lemma fetcher_no_credential (args : Args) (w : World) :
  is_aborted (signal args) w = false ->
  truthy (credential w) = false ->
  fetchPerplexityInsights args w = (Throw (Error api_key_missing), w).
Proof.
  intros Hab Hkey.
  cbv beta iota zeta delta
    [fetchPerplexityInsights bind aborted process_env throw].
  rewrite Hab. fold (credential w). rewrite Hkey. reflexivity.
Qed.

(** Past both checks the fetcher makes its network call, and goes on with
    what the network answers. *)
Lemma fetcher_sent (args : Args) (w : World) :
  is_aborted (signal args) w = false ->
  truthy (credential w) = true ->
  fetchPerplexityInsights args w =
    match network w (now w) (request_sent args w) with
    | Throw e => (Throw e, after_fetch args w)
    | Return response =>
        if ok response then
          match json response with
          | Throw e => (Throw e, tick (after_fetch args w))
          | Return data =>
              match envelope_content data with
              | Throw e => (Throw e, tick (after_fetch args w))
              | Return (VString block) =>
                  match JSON_parse (extract_content block) with
                  | None => (Throw SyntaxError, tick (after_fetch args w))
                  | Some parsed_content =>
                      match get_member data (js "citations"),
                            get_member data (js "images") with
                      | Return citations, Return images =>
                          (Return
                             (Some (obj_set (js "images") images
                                      (obj_set (js "sources") citations
                                         (spread parsed_content)))),
                           tick (after_fetch args w))
                      | Throw e, _ | _, Throw e =>
                          (Throw e, tick (after_fetch args w))
                      end
                  end
              | Return _ => (Throw TypeError, tick (after_fetch args w))
              end
          end
        else (Throw (Error (api_error (statusText response))),
              after_fetch args w)
    end.
Proof.
  intros Hab Hkey.
  cbv beta iota zeta delta
    [fetchPerplexityInsights bind aborted process_env await fetch
     response_json lift ret throw envelope_content result_bind].
  rewrite Hab. fold (credential w). rewrite Hkey.
  cbv beta iota zeta delta [negb].
  fold (request_sent args w). fold (after_fetch args w).
  destruct (network w (now w) (request_sent args w)) as [response|e];
    [|reflexivity].
  destruct (ok response); [|reflexivity]. cbv beta iota.
  destruct (json response) as [data|e]; [|reflexivity]. cbv beta iota.
  destruct (get_member data (js "choices")) as [choices|e]; [|reflexivity].
  destruct (get_member choices (js "0")) as [choice|e]; [|reflexivity].
  destruct (get_member choice (js "message")) as [message|e]; [|reflexivity].
  destruct (get_member message (js "content")) as [[| | | |block| |]|e];
    try reflexivity.
  destruct (JSON_parse (extract_content block)); [|reflexivity].
  destruct (get_member data (js "citations")) as [citations|e];
    [|reflexivity].
  destruct (get_member data (js "images")) as [images|e]; reflexivity.
Qed.

(** ** The wrapper, path by path *)

Lemma wrapper_hit (args : Args) (w : World) (cached : jsobject) :
  is_aborted (signal args) w = false ->
  cache w !! address args = Some cached ->
  fetchPerplexityInsightsWithCache args w
  = (Return (Some cached), after_lookup args w).
Proof.
  intros Hab Hhit.
  cbv beta iota zeta delta
    [fetchPerplexityInsightsWithCache bind aborted await
     fetchPerplexityInsightsFromCache ret].
  rewrite Hab, Hhit. reflexivity.
Qed.

Lemma wrapper_miss (args : Args) (w : World) :
  is_aborted (signal args) w = false ->
  cache w !! address args = None ->
  fetchPerplexityInsightsWithCache args w
  = settle args (fetchPerplexityInsights args (after_lookup args w)).
Proof.
  intros Hab Hmiss.
  cbv beta iota zeta delta
    [fetchPerplexityInsightsWithCache bind aborted await
     fetchPerplexityInsightsFromCache savePerplexityInsightsToCache ret].
  rewrite Hab, Hmiss. cbv beta iota. fold (after_lookup args w).
  unfold settle.
  destruct (fetchPerplexityInsights args (after_lookup args w))
    as [[fresh|e] w2]; [|reflexivity].
  destruct (is_aborted (signal args) (tick w2)), fresh; reflexivity.
Qed.

(** ** What the fetcher leaves alone *)

Lemma fetcher_footprint (args : Args) (w : World) :
  let w' := snd (fetchPerplexityInsights args w) in
  cache w' = cache w /\
  (trace w' = trace w \/
   trace w' = trace w ++ [NetworkCall (request_sent args w)]).
Proof.
  destruct (is_aborted (signal args) w) eqn:Hab.
  { rewrite fetcher_cancelled by done. simpl. auto. }
  destruct (truthy (credential w)) eqn:Hkey.
  2:{ rewrite fetcher_no_credential by done. simpl. auto. }
  rewrite fetcher_sent by done.
  repeat match goal with
         | |- context [match ?x with _ => _ end] => destruct x
         end; simpl; auto.
Qed.

Lemma cache_writes_app (t1 t2 : list Event) :
  cache_writes (t1 ++ t2) = cache_writes t1 ++ cache_writes t2.
Proof. apply omap_app. Qed.

Lemma network_calls_app (t1 t2 : list Event) :
  network_calls (t1 ++ t2) = network_calls t1 ++ network_calls t2.
Proof. apply omap_app. Qed.

Lemma fetcher_writes_nothing (args : Args) (w : World) :
  cache_writes (trace (snd (fetchPerplexityInsights args w)))
  = cache_writes (trace w).
Proof.
  destruct (fetcher_footprint args w) as [_ [-> | ->]]; [done|].
  unfold cache_writes. rewrite omap_app. simpl. apply app_nil_r.
Qed.

(** ** Objects *)

Lemma jsstring_eqb_eq (a b : jsstring) : jsstring_eqb a b = true <-> a = b.
Proof. unfold jsstring_eqb. apply bool_decide_eq_true. Qed.

Lemma jsstring_eqb_refl (a : jsstring) : jsstring_eqb a a = true.
Proof. by apply jsstring_eqb_eq. Qed.

Lemma jsstring_eqb_ne (a b : jsstring) : a <> b -> jsstring_eqb a b = false.
Proof. unfold jsstring_eqb. apply bool_decide_eq_false. Qed.

Lemma obj_get_set_eq (k : jsstring) (v : value) (o : jsobject) :
  obj_get k (obj_set k v o) = Some v.
Proof.
  induction o as [|[k' v'] o IH]; simpl.
  - by rewrite jsstring_eqb_refl.
  - destruct (jsstring_eqb k k') eqn:E; simpl.
    + by rewrite jsstring_eqb_refl.
    + by rewrite E.
Qed.

Lemma obj_get_set_ne (k k' : jsstring) (v : value) (o : jsobject) :
  k <> k' -> obj_get k (obj_set k' v o) = obj_get k o.
Proof.
  intros Hne. induction o as [|[k0 v0] o IH]; simpl.
  - by rewrite jsstring_eqb_ne.
  - destruct (jsstring_eqb k' k0) eqn:E; simpl.
    + apply jsstring_eqb_eq in E as <-. by rewrite !jsstring_eqb_ne.
    + by rewrite IH.
Qed.

(** A value that has given one member gives any member. *)
Lemma get_member_total (v v1 : value) (k1 k : jsstring) :
  get_member v k1 = Return v1 -> exists v', get_member v k = Return v'.
Proof. destruct v; simpl; intros H; try discriminate; eauto. Qed.

Lemma envelope_content_members (data content : value) (k : jsstring) :
  envelope_content data = Return content ->
  exists v, get_member data k = Return v.
Proof.
  unfold envelope_content, result_bind. intros H.
  destruct (get_member data (js "choices")) as [choices|] eqn:E;
    [|discriminate].
  eapply get_member_total, E.
Qed.

(** ** The matchers *)

Lemma any_char_true (c : N) : any_char c = true.
Proof. unfold any_char. by destruct (is_space c). Qed.

Section Matchers.
Context {A : Type}.
Implicit Types (k : @cont A) (s : jsstring) (p : N -> bool).

Lemma search_Some k s r :
  search k s = Some r -> exists pre s', s = pre ++ s' /\ k s' = Some r.
Proof.
  induction s as [|c s IH]; simpl.
  - destruct (k []) eqn:E; [|discriminate].
    intros [= ->]. by exists [], [].
  - destruct (k (c :: s)) eqn:E.
    + intros [= ->]. by exists [], (c :: s).
    + intros (pre & s' & -> & Hk)%IH. by exists (c :: pre), s'.
Qed.

Lemma search_here k s r : k s = Some r -> search k s = Some r.
Proof. intros H. destruct s; simpl; by rewrite H. Qed.

Lemma search_skip k c s : k (c :: s) = None -> search k (c :: s) = search k s.
Proof. intros H. simpl. by rewrite H. Qed.

Lemma chr_Some p k s r :
  chr p k s = Some r ->
  exists c s', s = c :: s' /\ p c = true /\ k s' = Some r.
Proof.
  destruct s as [|c s]; simpl; [discriminate|].
  destruct (p c) eqn:E; [|discriminate]. eauto.
Qed.

Lemma lit_Some ps k s r :
  lit ps k s = Some r ->
  exists cs s',
    s = cs ++ s' /\ Forall2 (fun p c => p c = true) ps cs /\ k s' = Some r.
Proof.
  revert s. induction ps as [|p ps IH]; intros s; simpl.
  - intros Hk. by exists [], s.
  - intros (c & s1 & -> & Hp & (cs & s' & -> & Hcs & Hk)%IH)%chr_Some.
    exists (c :: cs), s'. eauto.
Qed.

Lemma star_Some p k s r :
  star p k s = Some r ->
  exists cs s', s = cs ++ s' /\ Forall (fun c => p c = true) cs
                /\ k s' = Some r.
Proof.
  induction s as [|c s IH]; simpl.
  - intros Hk. by exists [], [].
  - destruct (p c) eqn:Hp; [|intros Hk; by exists [], (c :: s)].
    destruct (star p k s) as [r'|] eqn:E.
    + intros [= ->]. destruct (IH eq_refl) as (cs & s' & -> & Hcs & Hk).
      exists (c :: cs), s'. eauto.
    + intros Hk. by exists [], (c :: s).
Qed.

Lemma star_lazy_Some p k s r :
  star_lazy p k s = Some r ->
  exists cs s', s = cs ++ s' /\ Forall (fun c => p c = true) cs
                /\ k s' = Some r.
Proof.
  induction s as [|c s IH]; simpl.
  - destruct (k []) eqn:E; [|discriminate]. intros [= ->]. by exists [], [].
  - destruct (k (c :: s)) eqn:E.
    + intros [= ->]. by exists [], (c :: s).
    + destruct (p c) eqn:Hp; [|discriminate].
      intros (cs & s' & -> & Hcs & Hk)%IH. exists (c :: cs), s'. eauto.
Qed.

(** Greedy [[\s\S]*] before a character that does not occur. *)
Lemma star_any_absent (x : N) k s :
  x ∉ s -> star any_char (chr (exactly x) k) s = None.
Proof.
  induction s as [|c s IH]; intros Hx; simpl; [done|].
  rewrite any_char_true, IH by set_solver.
  unfold exactly. destruct (N.eqb_spec c x) as [->|]; [set_solver|done].
Qed.

(** Greedy [[\s\S]*] before a character goes to its last occurrence. *)
Lemma star_any_last (x : N) k mid post :
  x ∉ post -> is_Some (k post) ->
  star any_char (chr (exactly x) k) (mid ++ x :: post) = k post.
Proof.
  intros Hx [r Hr]. induction mid as [|c mid IH]; simpl.
  - rewrite any_char_true, star_any_absent by done.
    unfold exactly. by rewrite N.eqb_refl.
  - by rewrite any_char_true, IH, Hr.
Qed.
Lemma lit_app ps k cs s :
  Forall2 (fun p c => p c = true) ps cs -> lit ps k (cs ++ s) = k s.
Proof.
  induction 1 as [|p c ps cs Hp _ IH]; simpl; [done|]. by rewrite Hp.
Qed.

(** Greedy [x*] before something that is no [x] takes every [x]. *)
Lemma star_all p k ws s :
  Forall (fun c => p c = true) ws ->
  (forall c s', s = c :: s' -> p c = false) ->
  is_Some (k s) ->
  star p k (ws ++ s) = k s.
Proof.
  intros Hws Hs [r Hr]. induction Hws as [|c ws Hc _ IH].
  - destruct s as [|c s']; [done|]. simpl. by rewrite (Hs c s' eq_refl).
  - simpl. by rewrite Hc, IH, Hr.
Qed.

(** Lazy [[\s\S]*?] goes on while the rest of the pattern fails. *)
Lemma star_lazy_skip k text rest :
  (forall a b, text = a ++ b -> b <> [] -> k (b ++ rest) = None) ->
  star_lazy any_char k (text ++ rest) = star_lazy any_char k rest.
Proof.
  induction text as [|c text IH]; intros Hfail; [done|].
  pose proof (Hfail [] (c :: text) eq_refl ltac:(done)) as Hc.
  rewrite <- app_comm_cons in *. cbn [star_lazy]. rewrite Hc.
  rewrite any_char_true. apply IH. intros a b -> Hb.
  by apply (Hfail (c :: a) b).
Qed.

Lemma star_lazy_here p k s : is_Some (k s) -> star_lazy p k s = k s.
Proof. intros [r Hr]. destruct s; simpl; by rewrite Hr. Qed.

(** White space and three backticks are not found at the head of a text
    that has no three backticks in a row and ends with a character that is
    neither white space nor a backtick. *)
Lemma closing_fence_fails k (x : N) b rest :
  last b = Some x -> is_space x = false -> x <> backtick ->
  ~ contains b (js "```") ->
  star is_space (lit (map exactly (js "```")) k) (b ++ rest) = None.
Proof.
  intros Hlast Hx Hx'. induction b as [|c b IH]; [done|]. intros Hno.
  assert (Htail : b <> [] ->
            star is_space (lit (map exactly (js "```")) k) (b ++ rest) = None).
  { intros Hb. apply IH.
    - destruct b; [done|]. by rewrite last_cons_cons in Hlast.
    - intros (pre & post & ->). apply Hno. by exists (c :: pre), post. }
  assert (Hhere : lit (map exactly (js "```")) k ((c :: b) ++ rest) = None).
  { change (map exactly (js "```")) with (exactly <$> [96; 96; 96]).
    simpl. unfold exactly.
    destruct (N.eqb_spec c 96) as [->|]; [|done].
    destruct b as [|c2 b]; [by injection Hlast as <-|]. simpl.
    destruct (N.eqb_spec c2 96) as [->|]; [|done].
    destruct b as [|c3 b]; [by injection Hlast as <-|]. simpl.
    destruct (N.eqb_spec c3 96) as [->|]; [|done].
    destruct Hno. by exists [], b. }
  change ((c :: b) ++ rest) with (c :: b ++ rest) in *.
  cbn [star]. destruct (is_space c) eqn:Hc; [|done].
  destruct b as [|c2 b]; [injection Hlast as <-; congruence|].
  by rewrite Htail.
Qed.
End Matchers.

Lemma take_consumed (s cs s' : jsstring) :
  s = cs ++ s' -> take (length s - length s') s = cs.
Proof.
  intros ->. rewrite length_app, Nat.add_sub. by rewrite take_app_length.
Qed.

Lemma braces_span (mid post : jsstring) :
  lbrace :: mid ++ rbrace :: post = (lbrace :: mid ++ [rbrace]) ++ post.
Proof. simpl. by rewrite <- app_assoc. Qed.

(** What the brace pattern captures runs from an opening brace to a
    closing brace of the text. *)
Lemma re_braces_sound (s g : jsstring) :
  re_braces s = Some g ->
  exists pre mid post,
    s = pre ++ lbrace :: mid ++ rbrace :: post
    /\ g = lbrace :: mid ++ [rbrace].
Proof.
  unfold re_braces. intros (pre & s1 & -> & Hm)%search_Some.
  unfold group in Hm.
  apply chr_Some in Hm as (c & s2 & -> & Hc & Hm).
  apply star_Some in Hm as (mid & s3 & -> & _ & Hm).
  apply chr_Some in Hm as (c' & post & -> & Hc' & Hm).
  apply N.eqb_eq in Hc as ->. apply N.eqb_eq in Hc' as ->.
  injection Hm as <-. exists pre, mid, post. split; [done|].
  apply (take_consumed (lbrace :: mid ++ rbrace :: post)
           (lbrace :: mid ++ [rbrace]) post), braces_span.
Qed.

(** The brace pattern captures from the first opening brace to the last
    closing brace. *)
Lemma re_braces_widest (pre mid post : jsstring) :
  lbrace ∉ pre -> rbrace ∉ post ->
  re_braces (pre ++ lbrace :: mid ++ rbrace :: post)
  = Some (lbrace :: mid ++ [rbrace]).
Proof.
  intros Hpre Hpost. unfold re_braces.
  induction pre as [|c pre IH].
  - apply search_here. unfold group, chr at 1, exactly at 1.
    rewrite app_nil_l, N.eqb_refl.
    rewrite star_any_last by (done || eauto). f_equal.
    apply (take_consumed (lbrace :: mid ++ rbrace :: post)
             (lbrace :: mid ++ [rbrace]) post), braces_span.
  - rewrite <- app_comm_cons, search_skip; [apply IH; set_solver|].
    unfold group, chr at 1, exactly at 1.
    destruct (N.eqb_spec c lbrace) as [->|]; [set_solver|done].
Qed.

(** What the fence pattern captures lies between an opening fence and three
    backticks, with the white space on either side left out. *)
Lemma re_json_fence_sound (block g : jsstring) :
  re_json_fence block = Some g -> between_fences block g.
Proof.
  unfold re_json_fence, between_fences. intros (pre & s1 & -> & Hm)%search_Some.
  apply lit_Some in Hm as (opening & s2 & -> & Hopen & Hm).
  apply star_Some in Hm as (ws1 & s3 & -> & Hws1 & Hm).
  unfold group in Hm.
  apply star_lazy_Some in Hm as (cap & s4 & -> & _ & Hm).
  apply star_Some in Hm as (ws2 & s5 & -> & Hws2 & Hm).
  apply lit_Some in Hm as (close & post & -> & Hclose & Hm).
  injection Hm as <-.
  rewrite (take_consumed _ cap (ws2 ++ close ++ post)) by done.
  assert (close = js "```") as ->.
  { change (map exactly (js "```")) with (exactly <$> [96; 96; 96])
      in Hclose.
    apply Forall2_fmap_l in Hclose. unfold exactly in Hclose.
    repeat match goal with
           | H : Forall2 _ (_ :: _) _ |- _ =>
               apply Forall2_cons_inv_l in H as (? & ? & ?%N.eqb_eq & H & ->)
           | H : Forall2 _ [] _ |- _ => apply Forall2_nil_inv_l in H as ->
           end.
    by subst. }
  exists pre, opening, ws1, ws2, post. repeat split; try done.
  unfold fence_opening. by apply Forall2_fmap_l in Hopen.
Qed.

Lemma re_json_fence_backtick (block : jsstring) :
  backtick ∉ block -> re_json_fence block = None.
Proof.
  intros Hno. destruct (re_json_fence block) as [g|] eqn:E; [|done].
  apply re_json_fence_sound in E as (pre & opening & ? & ? & ? & -> & Ho & _).
  unfold fence_opening in Ho.
  change (js "```json") with (96 :: js "``json") in Ho.
  apply Forall2_cons_inv_l in Ho as (c & cs & Hc & _ & ->).
  assert (c = backtick) as ->.
  { unfold ignore_case in Hc. simpl in Hc. rewrite !orb_false_r in Hc.
    by apply N.eqb_eq in Hc. }
  set_solver.
Qed.

Lemma no_backtick_no_fence (s : jsstring) :
  backtick ∉ s -> ~ contains s (js "```").
Proof. intros Hno (pre & post & ->). set_solver. Qed.

Lemma re_braces_lbrace (block : jsstring) :
  lbrace ∉ block -> re_braces block = None.
Proof.
  intros Hno. destruct (re_braces block) as [g|] eqn:E; [|done].
  apply re_braces_sound in E as (pre & mid & post & -> & _). set_solver.
Qed.

Lemma extract_content_fence (block g : jsstring) :
  re_json_fence block = Some g -> extract_content block = g.
Proof. unfold extract_content, jsonMatch. by intros ->. Qed.

Lemma extract_content_fallback (block : jsstring) :
  re_json_fence block = None ->
  extract_content block = default [] (re_braces block).
Proof.
  unfold extract_content, jsonMatch. intros ->. by destruct (re_braces block).
Qed.

Lemma extract_content_no_match (block : jsstring) :
  jsonMatch block = None -> extract_content block = [].
Proof. unfold extract_content. by intros ->. Qed.

(** The fence pattern finds the object of a fenced block, provided the
    text of the object has no three backticks in a row. *)
Lemma re_json_fence_complete (block mid : jsstring) :
  fenced_from_start block (lbrace :: mid ++ [rbrace]) ->
  ~ contains (lbrace :: mid ++ [rbrace]) (js "```") ->
  re_json_fence block = Some (lbrace :: mid ++ [rbrace]).
Proof.
  intros (opening & ws1 & ws2 & post & -> & Hopen & Hws1 & Hws2) Hno.
  set (text := lbrace :: mid ++ [rbrace]) in *.
  assert (Hlit : forall (g s : jsstring),
    lit (map exactly (js "```")) (fun _ => Some g) (js "```" ++ s) = Some g).
  { intros g s. rewrite lit_app; [done|].
    change (map exactly (js "```")) with (exactly <$> [96; 96; 96]).
    change (js "```") with [96; 96; 96].
    apply Forall2_fmap_l. by repeat constructor. }
  assert (Hclose : forall (g : jsstring),
    star is_space (lit (map exactly (js "```")) (fun _ => Some g))
      (ws2 ++ js "```" ++ post) = Some g).
  { intros g. rewrite star_all; [apply Hlit | done | | rewrite Hlit; eauto].
    intros c s' E. vm_compute in E. by injection E as <- _. }
  unfold re_json_fence. apply search_here.
  rewrite lit_app by (by apply Forall2_fmap_l).
  rewrite star_all; [| done | by intros c s' [= <- _] | ].
  - unfold group. rewrite star_lazy_skip.
    + rewrite star_lazy_here by (rewrite Hclose; eauto).
      rewrite Hclose. f_equal. by apply take_consumed.
    + intros a b Hab Hb.
      apply (closing_fence_fails _ rbrace); try done.
      * assert (last text = Some rbrace) as Hl.
        { unfold text. by rewrite app_comm_cons, last_snoc. }
        rewrite Hab, last_app in Hl. destruct (last b) eqn:E; [done|].
        by apply last_None in E.
      * intros (pre' & post' & ->). apply Hno.
        exists (a ++ pre'), post'. rewrite Hab. by rewrite <- !app_assoc.
  - unfold group. rewrite star_lazy_skip.
    + rewrite star_lazy_here by (rewrite Hclose; eauto).
      rewrite Hclose. eauto.
    + intros a b Hab Hb.
      apply (closing_fence_fails _ rbrace); try done.
      * assert (last text = Some rbrace) as Hl.
        { unfold text. by rewrite app_comm_cons, last_snoc. }
        rewrite Hab, last_app in Hl. destruct (last b) eqn:E; [done|].
        by apply last_None in E.
      * intros (pre' & post' & ->). apply Hno.
        exists (a ++ pre'), post'. rewrite Hab. by rewrite <- !app_assoc.
Qed.

(** ** The parser and its fuel *)

Lemma skip_ws_length (s : jsstring) : (length (skip_ws s) <= length s)%nat.
Proof.
  induction s as [|c s IH]; simpl; [done|].
  destruct (is_json_ws c); simpl; lia.
Qed.

Lemma skip_ws_cons_length (s r : jsstring) (c : N) :
  skip_ws s = c :: r -> (S (length r) <= length s)%nat.
Proof. intros H. pose proof (skip_ws_length s) as L. by rewrite H in L. Qed.

Lemma digits_length (s d r : jsstring) :
  digits s = (d, r) -> (length r <= length s)%nat.
Proof.
  revert d r. induction s as [|c s IH]; simpl; intros d r.
  - by intros [= <- <-].
  - destruct (is_digit c).
    + destruct (digits s) as [d' r'] eqn:E. intros [= <- <-].
      specialize (IH _ _ eq_refl). lia.
    + intros [= <- <-]. simpl. lia.
Qed.

Lemma parse_string_chars_length (s t r : jsstring) :
  parse_string_chars s = Some (t, r) -> (length r < length s)%nat.
Proof.
  remember (length s) as n eqn:Hn. revert s t r Hn.
  induction n as [n IH] using lt_wf_ind. intros s t r -> H.
  destruct s as [|c s]; [discriminate|]. simpl in H.
  destruct (c =? 34); [injection H as <- <-; simpl; lia|].
  destruct (c =? 92).
  - destruct s as [|e s]; [discriminate|].
    destruct (e =? 117).
    + destruct s as [|h1 [|h2 [|h3 [|h4 s]]]]; try discriminate.
      destruct (hex_digit h1), (hex_digit h2), (hex_digit h3), (hex_digit h4);
        try discriminate.
      simpl in H.
      destruct (parse_string_chars s) as [[t' r']|] eqn:E; [|discriminate].
      injection H as <- <-.
      specialize (IH (length s) ltac:(simpl; lia) s t' r' eq_refl E).
      simpl. lia.
    + destruct (escape e); [|discriminate]. simpl in H.
      destruct (parse_string_chars s) as [[t' r']|] eqn:E; [|discriminate].
      injection H as <- <-.
      specialize (IH (length s) ltac:(simpl; lia) s t' r' eq_refl E).
      simpl. lia.
  - destruct (c <? 32); [discriminate|].
    destruct (parse_string_chars s) as [[t' r']|] eqn:E; [|discriminate].
    injection H as <- <-.
    specialize (IH (length s) ltac:(simpl; lia) s t' r' eq_refl E).
    simpl. lia.
Qed.

Lemma parse_number_length (s n r : jsstring) :
  parse_number s = Some (n, r) -> (length r < length s)%nat.
Proof.
  unfold parse_number.
  destruct (number_sign s) as [sg s1] eqn:Hsign.
  assert (L1 : (length s1 <= length s)%nat).
  { unfold number_sign in Hsign. destruct s as [|c s]; [by injection Hsign as <- <-|].
    destruct (c =? 45); injection Hsign as <- <-; simpl; lia. }
  destruct (number_int s1) as [[i s2]|] eqn:Hint; [|discriminate].
  assert (L2 : (length s2 < length s1)%nat).
  { unfold number_int in Hint. destruct s1 as [|c s1]; [discriminate|].
    destruct (c =? 48); [injection Hint as <- <-; simpl; lia|].
    destruct (is_digit c); [|discriminate].
    destruct (digits s1) as [d r'] eqn:E. injection Hint as <- <-.
    apply digits_length in E. simpl. lia. }
  simpl.
  destruct (number_frac s2) as [[fr s3]|] eqn:Hfrac; [|discriminate].
  assert (L3 : (length s3 <= length s2)%nat).
  { unfold number_frac in Hfrac. destruct s2 as [|c s2]; [by injection Hfrac as <- <-|].
    destruct (c =? 46); [|injection Hfrac as <- <-; simpl; lia].
    destruct (digits s2) as [d r'] eqn:E. apply digits_length in E.
    destruct d; [discriminate|]. injection Hfrac as <- <-. simpl. lia. }
  simpl.
  destruct (number_exp s3) as [[ex s4]|] eqn:Hexp; [|discriminate].
  assert (L4 : (length s4 <= length s3)%nat).
  { unfold number_exp in Hexp. destruct s3 as [|e s3]; [by injection Hexp as <- <-|].
    destruct ((e =? 101) || (e =? 69)); [|injection Hexp as <- <-; simpl; lia].
    destruct s3 as [|c t].
    - simpl in Hexp. discriminate.
    - destruct ((c =? 43) || (c =? 45)).
      + destruct (digits t) as [d r'] eqn:E. apply digits_length in E.
        destruct d; [discriminate|]. injection Hexp as <- <-. simpl. lia.
      + destruct (digits (c :: t)) as [d r'] eqn:E. apply digits_length in E.
        destruct d; [discriminate|]. injection Hexp as <- <-. simpl in *. lia. }
  simpl. intros [= <- <-]. lia.
Qed.

Lemma strip_prefix_length (p s r : jsstring) :
  strip_prefix p s = Some r -> length s = (length p + length r)%nat.
Proof.
  revert s. induction p as [|x p IH]; intros s; simpl.
  - by intros [= ->].
  - destruct s as [|c s]; [discriminate|].
    destruct (c =? x); [|discriminate]. intros H%IH. simpl. lia.
Qed.

Ltac break_hyp H :=
  repeat match type of H with
         | context [match ?x with _ => _ end] => destruct x eqn:?
         end.

Ltac length_facts :=
  repeat match goal with
         | H : skip_ws _ = _ :: _ |- _ => apply skip_ws_cons_length in H
         | H : parse_string_chars _ = Some _ |- _ =>
             apply parse_string_chars_length in H
         | H : parse_number _ = Some _ |- _ => apply parse_number_length in H
         | H : strip_prefix _ _ = Some _ |- _ =>
             apply strip_prefix_length in H
         end;
  repeat match goal with
         | |- context [skip_ws ?s] =>
             lazymatch goal with
             | _ : (length (skip_ws s) <= length s)%nat |- _ => fail
             | _ => pose proof (skip_ws_length s)
             end
         | _ : context [skip_ws ?s] |- _ =>
             lazymatch goal with
             | _ : (length (skip_ws s) <= length s)%nat |- _ => fail
             | _ => pose proof (skip_ws_length s)
             end
         end.

Lemma parse_shrinks (fuel : nat) :
  (forall s v r, parse_value fuel s = Parsed v r -> (length r < length s)%nat)
  /\ (forall s acc v r,
        parse_elements fuel s acc = Parsed v r -> (length r < length s)%nat)
  /\ (forall s acc v r,
        parse_members fuel s acc = Parsed v r -> (length r < length s)%nat).
Proof.
  induction fuel as [|fuel (IHv & IHe & IHm)]; [by repeat split|].
  repeat split.
  - intros s v r H. cbn [parse_value] in H. break_hyp H; simplify_eq;
      try match goal with H : parse_elements _ _ _ = Parsed _ _ |- _ => apply IHe in H end;
      try match goal with H : parse_members _ _ _ = Parsed _ _ |- _ => apply IHm in H end;
      length_facts; simpl in *; lia.
  - intros s acc v r H. cbn [parse_elements] in H. break_hyp H; simplify_eq;
      try match goal with H : parse_elements _ _ _ = Parsed _ _ |- _ => apply IHe in H end;
      try match goal with H : parse_value _ _ = Parsed _ _ |- _ => apply IHv in H end;
      length_facts; simpl in *; lia.
  - intros s acc v r H. cbn [parse_members] in H. break_hyp H; simplify_eq;
      try match goal with H : parse_members _ _ _ = Parsed _ _ |- _ => apply IHm in H end;
      try match goal with H : parse_value _ _ = Parsed _ _ |- _ => apply IHv in H end;
      length_facts; simpl in *; lia.
Qed.

Ltac break_goal :=
  repeat match goal with
         | |- context [match ?x with _ => _ end] => destruct x eqn:?
         end.

Lemma parse_fuel_enough (fuel : nat) :
  (forall s, (2 * length s < fuel)%nat -> parse_value fuel s <> OutOfFuel)
  /\ (forall s acc, (2 * length s + 1 < fuel)%nat ->
                    parse_elements fuel s acc <> OutOfFuel)
  /\ (forall s acc, (2 * length s + 1 < fuel)%nat ->
                    parse_members fuel s acc <> OutOfFuel).
Proof.
  induction fuel as [|fuel (IHv & IHe & IHm)]; [repeat split; intros; lia|].
  pose proof (parse_shrinks fuel) as (Sv & Se & Sm).
  repeat split.
  - intros s L. cbn [parse_value]. break_goal; try discriminate;
      (apply IHe || apply IHm); length_facts; simpl in *; lia.
  - intros s acc L. cbn [parse_elements].
    destruct (parse_value fuel s) as [v r| |] eqn:E; [|done|].
    + apply Sv in E. break_goal; try discriminate.
      apply IHe. length_facts. simpl in *. lia.
    + exfalso. revert E. apply IHv. lia.
  - intros s acc L. cbn [parse_members]. break_goal; try discriminate.
    + apply IHm. 
      repeat match goal with H : parse_value _ _ = Parsed _ _ |- _ => apply Sv in H end.
      length_facts. simpl in *. lia.
    + exfalso.
      match goal with H : parse_value _ _ = OutOfFuel |- _ => revert H end.
      apply IHv. length_facts. simpl in *. lia.
Qed.

Lemma parse_mono (fuel : nat) :
  (forall s more, (fuel <= more)%nat -> parse_value fuel s <> OutOfFuel ->
                  parse_value more s = parse_value fuel s)
  /\ (forall s acc more, (fuel <= more)%nat ->
        parse_elements fuel s acc <> OutOfFuel ->
        parse_elements more s acc = parse_elements fuel s acc)
  /\ (forall s acc more, (fuel <= more)%nat ->
        parse_members fuel s acc <> OutOfFuel ->
        parse_members more s acc = parse_members fuel s acc).
Proof.
  induction fuel as [|fuel (IHv & IHe & IHm)]; [by repeat split|].
  repeat split.
  - intros s [|more] L H; [lia|]. cbn [parse_value] in *.
    break_goal; try done; (apply IHe || apply IHm); (lia || done).
  - intros s acc [|more] L H; [lia|]. cbn [parse_elements] in *.
    destruct (parse_value fuel s) as [v r| |] eqn:E; [| |done].
    + rewrite (IHv s more) by (lia || by rewrite E). rewrite E.
      break_goal; try done. apply IHe; (lia || done).
    + rewrite (IHv s more) by (lia || by rewrite E). by rewrite E.
  - intros s acc [|more] L H; [lia|]. cbn [parse_members] in *.
    destruct s as [|q s]; [done|]. destruct (q =? 34); [|done].
    destruct (parse_string_chars s) as [[k r]|]; [|done].
    destruct (skip_ws r) as [|c r']; [done|]. destruct (c =? 58); [|done].
    destruct (parse_value fuel (skip_ws r')) as [v r1| |] eqn:E; [| |done].
    + rewrite (IHv _ more) by (lia || by rewrite E). rewrite E.
      break_goal; try done. apply IHm; (lia || done).
    + rewrite (IHv _ more) by (lia || by rewrite E). by rewrite E.
Qed.

Lemma JSON_parse_fuel_enough (text : jsstring) :
  JSON_parse_fuel (2 * length text + 2) text <> OutOfFuel.
Proof.
  unfold JSON_parse_fuel.
  destruct (parse_fuel_enough (2 * length text + 2)) as (Hv & _).
  specialize (Hv (skip_ws text)). pose proof (skip_ws_length text).
  destruct (parse_value _ (skip_ws text)) as [v r| |]; [|done|].
  - by destruct (skip_ws r).
  - exfalso. apply Hv; [lia|done].
Qed.

Lemma JSON_parse_fuel_mono (fuel more : nat) (text : jsstring) :
  (fuel <= more)%nat ->
  JSON_parse_fuel fuel text <> OutOfFuel ->
  JSON_parse_fuel more text = JSON_parse_fuel fuel text.
Proof.
  unfold JSON_parse_fuel. intros L H.
  destruct (parse_mono fuel) as (Hv & _).
  rewrite (Hv (skip_ws text) more L); [done|].
  intros E. by rewrite E in H.
Qed.

(** [JSON.parse] throws exactly on the texts that are not valid JSON: the
    fuel it is given never runs out. *)
Lemma JSON_parse_None (text : jsstring) :
  JSON_parse text = None <-> ~ valid_json text.
Proof.
  unfold JSON_parse, valid_json.
  pose proof (JSON_parse_fuel_enough text) as Hfuel.
  split.
  - intros Hnone (fuel & v & Hv).
    destruct (Nat.le_ge_cases fuel (2 * length text + 2)) as [L|L].
    + rewrite (JSON_parse_fuel_mono fuel _ text L), Hv in Hnone; [done|].
      by rewrite Hv.
    + rewrite (JSON_parse_fuel_mono _ fuel text L Hfuel) in Hv.
      by rewrite Hv in Hnone.
  - intros Hinvalid.
    destruct (JSON_parse_fuel _ text) as [v r| |] eqn:E; [|done|done].
    exfalso. apply Hinvalid. exists (2 * length text + 2)%nat, v.
    unfold JSON_parse_fuel in *.
    destruct (parse_value _ (skip_ws text)) as [v' r'| |]; try done.
    destruct (skip_ws r'); [|done]. by injection E as -> <-.
Qed.

(** ** From a parsed object to the record *)

Lemma fetcher_record
  (args : Args) (w : World) (response : Response)
  (data : value) (block : jsstring) (o : jsobject) :
  is_aborted (signal args) w = false ->
  truthy (credential w) = true ->
  network w (now w) (request_sent args w) = Return response ->
  ok response = true ->
  json response = Return data ->
  envelope_content data = Return (VString block) ->
  JSON_parse (extract_content block) = Some (VObject o) ->
  exists record citations images,
    fst (fetchPerplexityInsights args w) = Return (Some record)
    /\ (forall k, k <> js "sources" -> k <> js "images" ->
                  obj_get k record = obj_get k o)
    /\ get_member data (js "citations") = Return citations
    /\ get_member data (js "images") = Return images
    /\ obj_get (js "sources") record = Some citations
    /\ obj_get (js "images") record = Some images.
Proof.
  intros Hab Hkey Hnet Hok Hjson Hcontent Hparse.
  destruct (envelope_content_members data _ (js "citations") Hcontent)
    as [citations Hcit].
  destruct (envelope_content_members data _ (js "images") Hcontent)
    as [images Himg].
  exists (obj_set (js "images") images
            (obj_set (js "sources") citations o)), citations, images.
  split.
  { rewrite (fetcher_sent args w Hab Hkey), Hnet, Hok, Hjson, Hcontent.
    by rewrite Hparse, Hcit, Himg. }
  split; [intros k Hs Hi; by rewrite !obj_get_set_ne|].
  split; [done|]. split; [done|]. split.
  - by rewrite obj_get_set_ne, obj_get_set_eq.
  - by rewrite obj_get_set_eq.
Qed.

(** ** Cancellation at entry *)

(** C1: when the cancellation signal is already triggered at entry, the
    fetcher and the wrapper both return null and leave the world as it was:
    nothing is added to the log (no network call, no cache read, no cache
    write) and the cache is unchanged. *)
Theorem cancelled_at_entry (args : Args) (w : World) :
  is_aborted (signal args) w = true ->
  (fetchPerplexityInsights args w = (Return None, w)
   /\ fetchPerplexityInsightsWithCache args w = (Return None, w))
  /\ trace (snd (fetchPerplexityInsights args w)) = trace w
  /\ trace (snd (fetchPerplexityInsightsWithCache args w)) = trace w
  /\ cache (snd (fetchPerplexityInsightsWithCache args w)) = cache w.
Proof.
  intros Hab.
  rewrite (fetcher_cancelled args w Hab), (wrapper_cancelled args w Hab).
  repeat split.
Qed.

Lemma cancelled_at_entry_witness :
  let args := sample_args (Some cancelled_signal) in
  let w := sample_world sample_key (Return (ok_response fenced_block)) in
  is_aborted (signal args) w = true
  /\ fetchPerplexityInsights args w = (Return None, w)
  /\ fetchPerplexityInsightsWithCache args w = (Return None, w).
Proof.
  intros args w.
  assert (Hab : is_aborted (signal args) w = true) by reflexivity.
  split; [exact Hab|].
  exact (proj1 (cancelled_at_entry args w Hab)).
Defined.

(** C10: the cancellation check comes before the credential check: with
    the signal triggered at entry and no credential in the environment,
    the fetcher returns null and raises no configuration error. *)
Theorem cancellation_precedes_credential (args : Args) (w : World) :
  is_aborted (signal args) w = true ->
  credential w = None ->
  fetchPerplexityInsights args w = (Return None, w)
  /\ fst (fetchPerplexityInsights args w) <> Throw (Error api_key_missing).
Proof.
  intros Hab _. rewrite (fetcher_cancelled args w Hab). split; [done|].
  simpl. discriminate.
Qed.

Lemma cancellation_precedes_credential_witness :
  let args := sample_args (Some cancelled_signal) in
  let w := sample_world None (Return (ok_response fenced_block)) in
  is_aborted (signal args) w = true /\ credential w = None
  /\ fetchPerplexityInsights args w = (Return None, w).
Proof.
  intros args w.
  assert (Hab : is_aborted (signal args) w = true) by reflexivity.
  assert (Hkey : credential w = None) by reflexivity.
  split; [exact Hab|]. split; [exact Hkey|].
  exact (proj1 (cancellation_precedes_credential args w Hab Hkey)).
Defined.

(** ** The credential *)

(** C5: with a signal that is not aborted and no credential in the
    environment, the fetcher fails with the configuration error, and the
    world is as it was: no network call was attempted. *)
Theorem missing_credential (args : Args) (w : World) :
  is_aborted (signal args) w = false ->
  credential w = None ->
  fetchPerplexityInsights args w = (Throw (Error api_key_missing), w)
  /\ network_calls (trace (snd (fetchPerplexityInsights args w)))
     = network_calls (trace w).
Proof.
  intros Hab Hkey.
  assert (Hfalsy : truthy (credential w) = false) by (rewrite Hkey; done).
  rewrite (fetcher_no_credential args w Hab Hfalsy). split; reflexivity.
Qed.

Lemma missing_credential_witness :
  let args := sample_args (Some live_signal) in
  let w := sample_world None (Return (ok_response fenced_block)) in
  is_aborted (signal args) w = false /\ credential w = None
  /\ fetchPerplexityInsights args w = (Throw (Error api_key_missing), w).
Proof.
  intros args w.
  assert (Hab : is_aborted (signal args) w = false) by reflexivity.
  assert (Hkey : credential w = None) by reflexivity.
  split; [exact Hab|]. split; [exact Hkey|].
  exact (proj1 (missing_credential args w Hab Hkey)).
Defined.

(** ** Cache hits *)

(** C2: when the lookup for the address yields a record, the wrapper
    returns that very record, whatever the name parameter is; the only
    input or output is the cache read: no network call, no cache write. *)
Theorem cache_hit_verbatim (args : Args) (w : World) (cached : jsobject) :
  is_aborted (signal args) w = false ->
  cache w !! address args = Some cached ->
  let w' := snd (fetchPerplexityInsightsWithCache args w) in
  fst (fetchPerplexityInsightsWithCache args w) = Return (Some cached)
  /\ trace w' = trace w ++ [CacheRead (address args)]
  /\ network_calls (trace w') = network_calls (trace w)
  /\ cache_writes (trace w') = cache_writes (trace w)
  /\ cache w' = cache w
  /\ forall other_name,
       fst (fetchPerplexityInsightsWithCache
              {| address := address args; name := other_name;
                 signal := signal args |} w)
       = Return (Some cached).
Proof.
  intros Hab Hhit. rewrite (wrapper_hit args w cached Hab Hhit). simpl.
  split; [done|]. split; [done|].
  unfold network_calls, cache_writes. rewrite !omap_app. simpl.
  rewrite !app_nil_r. repeat split.
  intros other_name.
  rewrite (wrapper_hit {| address := address args; name := other_name;
                          signal := signal args |} w cached Hab Hhit).
  reflexivity.
Qed.

Lemma cache_hit_verbatim_witness :
  let args := sample_args (Some live_signal) in
  let w := store sample_address sample_record
             (sample_world sample_key (Return error_response)) in
  is_aborted (signal args) w = false
  /\ cache w !! address args = Some sample_record
  /\ fst (fetchPerplexityInsightsWithCache args w)
     = Return (Some sample_record).
Proof.
  intros args w.
  assert (Hab : is_aborted (signal args) w = false) by reflexivity.
  assert (Hhit : cache w !! address args = Some sample_record)
    by (vm_compute; reflexivity).
  split; [exact Hab|]. split; [exact Hhit|].
  exact (proj1 (cache_hit_verbatim args w sample_record Hab Hhit)).
Defined.

(** ** Cache misses *)

(** C3: on a miss, when the fetch gives a record and the signal is not
    aborted afterwards, the wrapper returns that record, and the last
    thing it did before returning was to write that same record to the
    cache under the address. *)
Theorem miss_then_fetch_is_cached
  (args : Args) (w w2 : World) (record : jsobject) :
  is_aborted (signal args) w = false ->
  cache w !! address args = None ->
  fetchPerplexityInsights args (after_lookup args w)
  = (Return (Some record), w2) ->
  is_aborted (signal args) (tick w2) = false ->
  let w' := snd (fetchPerplexityInsightsWithCache args w) in
  fst (fetchPerplexityInsightsWithCache args w) = Return (Some record)
  /\ trace w' = trace w2 ++ [CacheWrite (address args) record]
  /\ cache_writes (trace w')
     = cache_writes (trace w) ++ [(address args, record)]
  /\ cache w' = <[address args := record]> (cache w)
  /\ cache w' !! address args = Some record.
Proof.
  intros Hab Hmiss Hfetch Hlive.
  pose proof (fetcher_footprint args (after_lookup args w)) as [Hc _].
  pose proof (fetcher_writes_nothing args (after_lookup args w)) as Hw.
  rewrite (wrapper_miss args w Hab Hmiss), Hfetch. rewrite Hfetch in Hc, Hw.
  simpl in Hc, Hw. unfold settle. rewrite Hlive. simpl.
  split; [done|]. split; [done|]. split.
  - unfold cache_writes in *. rewrite omap_app, Hw, omap_app. simpl.
    by rewrite app_nil_r.
  - rewrite Hc. split; [done|]. apply lookup_insert_eq.
Qed.

Lemma miss_then_fetch_is_cached_witness :
  let args := sample_args (Some live_signal) in
  let w := sample_world sample_key (Return (ok_response fenced_block)) in
  let w2 := tick (after_fetch args (after_lookup args w)) in
  (is_aborted (signal args) w = false
   /\ cache w !! address args = None
   /\ fetchPerplexityInsights args (after_lookup args w)
      = (Return (Some sample_record), w2)
   /\ is_aborted (signal args) (tick w2) = false)
  /\ fst (fetchPerplexityInsightsWithCache args w)
     = Return (Some sample_record)
  /\ cache_writes (trace (snd (fetchPerplexityInsightsWithCache args w)))
     = [(sample_address, sample_record)].
Proof.
  intros args w w2.
  assert (Hab : is_aborted (signal args) w = false) by reflexivity.
  assert (Hmiss : cache w !! address args = None) by reflexivity.
  assert (Hfetch : fetchPerplexityInsights args (after_lookup args w)
                   = (Return (Some sample_record), w2))
    by (vm_compute; reflexivity).
  assert (Hlive : is_aborted (signal args) (tick w2) = false) by reflexivity.
  split; [auto|].
  destruct (miss_then_fetch_is_cached args w w2 sample_record
              Hab Hmiss Hfetch Hlive) as (Hres & _ & Hwrites & _).
  split; [exact Hres|exact Hwrites].
Defined.

(** C9: on a miss, when the fetch has completed and either cancellation
    has been requested by then or the fetch gave no record, the wrapper
    returns null and writes nothing to the cache. *)
Theorem cancelled_or_empty_fetch
  (args : Args) (w w2 : World) (fresh : option jsobject) :
  is_aborted (signal args) w = false ->
  cache w !! address args = None ->
  fetchPerplexityInsights args (after_lookup args w) = (Return fresh, w2) ->
  is_aborted (signal args) (tick w2) = true \/ fresh = None ->
  let w' := snd (fetchPerplexityInsightsWithCache args w) in
  fst (fetchPerplexityInsightsWithCache args w) = Return None
  /\ cache_writes (trace w') = cache_writes (trace w)
  /\ cache w' = cache w.
Proof.
  intros Hab Hmiss Hfetch Hcase.
  pose proof (fetcher_footprint args (after_lookup args w)) as [Hc _].
  pose proof (fetcher_writes_nothing args (after_lookup args w)) as Hw.
  rewrite (wrapper_miss args w Hab Hmiss), Hfetch. rewrite Hfetch in Hc, Hw.
  simpl in Hc, Hw.
  assert (Hsettle : settle args (Return fresh, w2) = (Return None, tick w2)).
  { unfold settle. destruct Hcase as [-> | ->]; [done|].
    by destruct (is_aborted (signal args) (tick w2)). }
  rewrite Hsettle. simpl. split; [done|]. split.
  - rewrite Hw. unfold cache_writes. rewrite omap_app. simpl.
    by rewrite app_nil_r.
  - exact Hc.
Qed.

Lemma cancelled_or_empty_fetch_witness :
  let args := sample_args (Some signal_aborted_during_lookup) in
  let w := sample_world sample_key (Return (ok_response fenced_block)) in
  (is_aborted (signal args) w = false
   /\ cache w !! address args = None
   /\ fetchPerplexityInsights args (after_lookup args w)
      = (Return None, after_lookup args w))
  /\ fst (fetchPerplexityInsightsWithCache args w) = Return None
  /\ cache (snd (fetchPerplexityInsightsWithCache args w)) = cache w.
Proof.
  intros args w.
  assert (Hab : is_aborted (signal args) w = false) by reflexivity.
  assert (Hmiss : cache w !! address args = None) by reflexivity.
  assert (Hfetch : fetchPerplexityInsights args (after_lookup args w)
                   = (Return None, after_lookup args w))
    by (vm_compute; reflexivity).
  split; [auto|].
  destruct (cancelled_or_empty_fetch args w (after_lookup args w) None
              Hab Hmiss Hfetch (or_intror eq_refl)) as (Hres & _ & Hcache).
  split; [exact Hres|exact Hcache].
Defined.

(** A caller who aborts while the fetcher waits for the network: the
    record that the fetch gives all the same is dropped, not cached. *)
Example cancelled_during_fetch :
  let args := sample_args (Some signal_aborted_during_fetch) in
  let w := sample_world sample_key (Return (ok_response fenced_block)) in
  fst (fetchPerplexityInsights args (after_lookup args w))
  = Return (Some sample_record)
  /\ fst (fetchPerplexityInsightsWithCache args w) = Return None
  /\ cache (snd (fetchPerplexityInsightsWithCache args w)) = ∅.
Proof. repeat split; vm_compute; reflexivity. Qed.

(** ** Upstream errors *)

(** C4: when the response to the fetcher's request has a non-success
    status, the fetcher fails with an error whose message contains the
    status text of the response; an invocation of the wrapper that
    reaches this fetch fails with the same error, and has written
    nothing to the cache. *)
Theorem non_success_status (args : Args) (w : World) (response : Response) :
  is_aborted (signal args) w = false ->
  truthy (credential w) = true ->
  network w (now w) (request_sent args w) = Return response ->
  ok response = false ->
  let failure := Error (api_error (statusText response)) in
  fst (fetchPerplexityInsights args w) = Throw failure
  /\ contains (api_error (statusText response)) (statusText response)
  /\ forall w0,
       is_aborted (signal args) w0 = false ->
       cache w0 !! address args = None ->
       after_lookup args w0 = w ->
       let w' := snd (fetchPerplexityInsightsWithCache args w0) in
       fst (fetchPerplexityInsightsWithCache args w0) = Throw failure
       /\ cache_writes (trace w') = cache_writes (trace w0)
       /\ cache w' = cache w0.
Proof.
  intros Hab Hkey Hnet Hko failure.
  assert (Hfetch : fetchPerplexityInsights args w
                   = (Throw failure, after_fetch args w)).
  { rewrite (fetcher_sent args w Hab Hkey), Hnet, Hko. reflexivity. }
  split; [by rewrite Hfetch|]. split.
  { exists (js "Perplexity AI API error: "), []. unfold api_error.
    by rewrite app_nil_r. }
  intros w0 Hab0 Hmiss Hw.
  rewrite (wrapper_miss args w0 Hab0 Hmiss), Hw, Hfetch. simpl.
  split; [done|]. split; [|by rewrite <- Hw].
  rewrite <- Hw. unfold after_fetch, after_lookup, tick, log. cbn [trace].
  rewrite !cache_writes_app. cbn [cache_writes omap].
  by rewrite !app_nil_r.
Qed.

Lemma non_success_status_witness :
  let args := sample_args (Some live_signal) in
  let w0 := sample_world sample_key (Return error_response) in
  let w := after_lookup args w0 in
  (is_aborted (signal args) w = false
   /\ truthy (credential w) = true
   /\ network w (now w) (request_sent args w) = Return error_response
   /\ ok error_response = false)
  /\ fst (fetchPerplexityInsights args w)
     = Throw (Error (js "Perplexity AI API error: Too Many Requests"))
  /\ fst (fetchPerplexityInsightsWithCache args w0)
     = Throw (Error (js "Perplexity AI API error: Too Many Requests"))
  /\ cache (snd (fetchPerplexityInsightsWithCache args w0)) = cache w0.
Proof.
  intros args w0 w.
  assert (Hab : is_aborted (signal args) w = false) by reflexivity.
  assert (Hkey : truthy (credential w) = true) by (vm_compute; reflexivity).
  assert (Hnet : network w (now w) (request_sent args w)
                 = Return error_response) by reflexivity.
  assert (Hko : ok error_response = false) by reflexivity.
  split; [auto|].
  destruct (non_success_status args w error_response Hab Hkey Hnet Hko)
    as (Hres & _ & Hwrap).
  split; [exact Hres|].
  destruct (Hwrap w0 eq_refl eq_refl eq_refl) as (Hres' & _ & Hcache).
  split; [exact Hres'|exact Hcache].
Defined.

(** ** Successful responses *)

(** C7, as amended: when the response is successful and its message
    content is a fenced block around the text of a JSON object in which no
    three backticks occur in a row, the fetcher returns a record whose
    name, description, features and parking (and any other field but
    sources and images) are those of the parsed object, and whose sources
    and images are the citations and images of the response envelope. *)
Theorem fenced_object_record
  (args : Args) (w : World) (response : Response)
  (data : value) (block mid : jsstring) (o : jsobject) :
  is_aborted (signal args) w = false ->
  truthy (credential w) = true ->
  network w (now w) (request_sent args w) = Return response ->
  ok response = true ->
  json response = Return data ->
  envelope_content data = Return (VString block) ->
  fenced_from_start block (lbrace :: mid ++ [rbrace]) ->
  ~ contains (lbrace :: mid ++ [rbrace]) (js "```") ->
  JSON_parse (lbrace :: mid ++ [rbrace]) = Some (VObject o) ->
  exists record citations images,
    fst (fetchPerplexityInsights args w) = Return (Some record)
    /\ (obj_get (js "name") record = obj_get (js "name") o
        /\ obj_get (js "description") record = obj_get (js "description") o
        /\ obj_get (js "features") record = obj_get (js "features") o
        /\ obj_get (js "parking") record = obj_get (js "parking") o)
    /\ (forall k, k <> js "sources" -> k <> js "images" ->
                  obj_get k record = obj_get k o)
    /\ get_member data (js "citations") = Return citations
    /\ get_member data (js "images") = Return images
    /\ obj_get (js "sources") record = Some citations
    /\ obj_get (js "images") record = Some images.
Proof.
  intros Hab Hkey Hnet Hok Hjson Hcontent Hfenced Hno Hparse.
  pose proof (re_json_fence_complete block mid Hfenced Hno) as Hfence.
  rewrite <- (extract_content_fence block _ Hfence) in Hparse.
  destruct (fetcher_record args w response data block o
              Hab Hkey Hnet Hok Hjson Hcontent Hparse)
    as (record & citations & images & Hres & Hother & Hrest).
  exists record, citations, images.
  split; [exact Hres|]. split; [repeat split; by apply Hother|].
  split; [exact Hother|exact Hrest].
Qed.

Lemma fenced_object_record_witness :
  let args := sample_args (Some live_signal) in
  let w := sample_world sample_key (Return (ok_response fenced_block)) in
  (is_aborted (signal args) w = false
   /\ truthy (credential w) = true
   /\ network w (now w) (request_sent args w)
      = Return (ok_response fenced_block)
   /\ envelope_content (envelope fenced_block) = Return (VString fenced_block)
   /\ fenced_from_start fenced_block (lbrace :: sunset_members ++ [rbrace])
   /\ ~ contains (lbrace :: sunset_members ++ [rbrace]) (js "```")
   /\ JSON_parse (lbrace :: sunset_members ++ [rbrace])
      = Some (VObject (take 4 sample_record)))
  /\ exists record,
       fst (fetchPerplexityInsights args w) = Return (Some record)
       /\ obj_get (js "name") record
          = Some (VString (js "Sunset Park Playground"))
       /\ obj_get (js "description") record = Some (VString (js "..."))
       /\ obj_get (js "features") record
          = Some (VArray [VString (js "slide"); VString (js "swing")])
       /\ obj_get (js "parking") record
          = Some (VString (js "Street parking"))
       /\ obj_get (js "sources") record = Some sample_citations
       /\ obj_get (js "images") record = Some sample_images.
Proof.
  intros args w.
  assert (Hab : is_aborted (signal args) w = false) by reflexivity.
  assert (Hkey : truthy (credential w) = true) by (vm_compute; reflexivity).
  assert (Hnet : network w (now w) (request_sent args w)
                 = Return (ok_response fenced_block)) by reflexivity.
  assert (Hcontent : envelope_content (envelope fenced_block)
                     = Return (VString fenced_block))
    by (vm_compute; reflexivity).
  assert (Hfenced : fenced_from_start fenced_block
                      (lbrace :: sunset_members ++ [rbrace])).
  { exists (js "```json"), [10], [10], [].
    split; [vm_compute; reflexivity|].
    split; [|by repeat constructor].
    unfold fence_opening. vm_compute. by repeat constructor. }
  assert (Hno : ~ contains (lbrace :: sunset_members ++ [rbrace]) (js "```")).
  { apply no_backtick_no_fence. apply (bool_decide_unpack _).
    vm_compute. exact I. }
  assert (Hparse : JSON_parse (lbrace :: sunset_members ++ [rbrace])
                   = Some (VObject (take 4 sample_record)))
    by (vm_compute; reflexivity).
  split; [auto 10|].
  destruct (fenced_object_record args w _ _ _ _ _
              Hab Hkey Hnet eq_refl eq_refl Hcontent Hfenced Hno Hparse)
    as (record & citations & images & Hres & (Hn & Hd & Hf & Hp) & _
        & Hcit & Himg & Hsrc & Hims).
  injection Hcit as <-. injection Himg as <-.
  exists record. split; [exact Hres|].
  rewrite Hn, Hd, Hf, Hp. repeat split; try done; vm_compute; reflexivity.
Defined.

(** C7, as the claim words it, fails: a fenced block around a JSON object
    with the four primary fields, one of which holds three backticks in a
    row; the lazy capture stops there and the fetcher fails with the parse
    error instead of returning the record. *)
Lemma fenced_object_with_backticks_fails :
  let args := sample_args (Some live_signal) in
  let w := sample_world sample_key (Return (ok_response backticks_block)) in
  fenced_from_start backticks_block backticks_object
  /\ JSON_parse backticks_object
     = Some (VObject
               [ (js "name", VString (js "Sunset Park Playground"));
                 (js "description",
                   VString (js "Look for the ```Sunset``` sign."));
                 (js "features",
                   VArray [VString (js "slide"); VString (js "swing")]);
                 (js "parking", VString (js "Street parking")) ])
  /\ is_aborted (signal args) w = false
  /\ truthy (credential w) = true
  /\ network w (now w) (request_sent args w)
     = Return (ok_response backticks_block)
  /\ envelope_content (envelope backticks_block)
     = Return (VString backticks_block)
  /\ extract_content backticks_block
     = jsq "{'name':'Sunset Park Playground','description':'Look for the"
  /\ fst (fetchPerplexityInsights args w) = Throw SyntaxError.
Proof.
  intros args w. split.
  { exists (js "```json"), [10], [10], [].
    split; [vm_compute; reflexivity|].
    split; [|by repeat constructor].
    unfold fence_opening. vm_compute. by repeat constructor. }
  repeat split; vm_compute; reflexivity.
Qed.

(** C8: when the response is successful and the text extracted from its
    message content is not valid JSON, the fetcher fails with the parse
    error and returns no record.  A content in which neither pattern
    matches is such a case: the extracted text is then empty.  A content
    with no backtick and no opening brace is one in which neither
    matches. *)
Theorem malformed_content
  (args : Args) (w : World) (response : Response)
  (data : value) (block : jsstring) :
  is_aborted (signal args) w = false ->
  truthy (credential w) = true ->
  network w (now w) (request_sent args w) = Return response ->
  ok response = true ->
  json response = Return data ->
  envelope_content data = Return (VString block) ->
  (~ valid_json (extract_content block) ->
   fst (fetchPerplexityInsights args w) = Throw SyntaxError)
  /\ (jsonMatch block = None ->
      extract_content block = []
      /\ fst (fetchPerplexityInsights args w) = Throw SyntaxError)
  /\ (backtick ∉ block -> lbrace ∉ block -> jsonMatch block = None).
Proof.
  intros Hab Hkey Hnet Hok Hjson Hcontent.
  assert (Hfail : JSON_parse (extract_content block) = None ->
                  fst (fetchPerplexityInsights args w) = Throw SyntaxError).
  { intros Hparse.
    rewrite (fetcher_sent args w Hab Hkey), Hnet, Hok, Hjson, Hcontent.
    by rewrite Hparse. }
  split; [intros Hinvalid; by apply Hfail, JSON_parse_None|]. split.
  - intros Hnone. split; [by apply extract_content_no_match|].
    apply Hfail. by rewrite (extract_content_no_match block Hnone).
  - intros Hb Hl. unfold jsonMatch.
    by rewrite (re_json_fence_backtick block Hb), (re_braces_lbrace block Hl).
Qed.

Lemma malformed_content_witness :
  let args := sample_args (Some live_signal) in
  let block := js "I could not find a playground at this address." in
  let w := sample_world sample_key (Return (ok_response block)) in
  (is_aborted (signal args) w = false
   /\ truthy (credential w) = true
   /\ network w (now w) (request_sent args w) = Return (ok_response block)
   /\ envelope_content (envelope block) = Return (VString block)
   /\ jsonMatch block = None)
  /\ extract_content block = []
  /\ fst (fetchPerplexityInsights args w) = Throw SyntaxError.
Proof.
  intros args block w.
  assert (Hab : is_aborted (signal args) w = false) by reflexivity.
  assert (Hkey : truthy (credential w) = true) by (vm_compute; reflexivity).
  assert (Hnet : network w (now w) (request_sent args w)
                 = Return (ok_response block)) by reflexivity.
  assert (Hcontent : envelope_content (envelope block)
                     = Return (VString block)) by (vm_compute; reflexivity).
  assert (Hnone : jsonMatch block = None) by (vm_compute; reflexivity).
  split; [auto 10|].
  exact (proj1 (proj2 (malformed_content args w _ _ _
                         Hab Hkey Hnet eq_refl eq_refl Hcontent)) Hnone).
Defined.


(** ** The extraction step *)

(** C6, as amended: the extraction first takes what lies between an
    opening json fence and three backticks; when the fence pattern does
    not match, it takes the text from the first opening brace to the last
    closing brace that follows it, and the empty text when there is no
    such pair.  For the bare text of the example, the fetcher returns a
    record whose four primary fields are null. *)
Theorem extraction_fence_then_brace_span (block : jsstring) :
  (forall g, re_json_fence block = Some g ->
             extract_content block = g /\ between_fences block g)
  /\ (re_json_fence block = None ->
      forall pre mid post,
        block = pre ++ lbrace :: mid ++ rbrace :: post ->
        lbrace ∉ pre -> rbrace ∉ post ->
        extract_content block = lbrace :: mid ++ [rbrace])
  /\ (re_json_fence block = None ->
      (forall pre mid post, block <> pre ++ lbrace :: mid ++ rbrace :: post) ->
      extract_content block = [])
  /\ (block = bare_block ->
      extract_content block = not_found_object
      /\ forall args w response data,
           is_aborted (signal args) w = false ->
           truthy (credential w) = true ->
           network w (now w) (request_sent args w) = Return response ->
           ok response = true ->
           json response = Return data ->
           envelope_content data = Return (VString block) ->
           exists record,
             fst (fetchPerplexityInsights args w) = Return (Some record)
             /\ obj_get (js "name") record = Some VNull
             /\ obj_get (js "description") record = Some VNull
             /\ obj_get (js "features") record = Some VNull
             /\ obj_get (js "parking") record = Some VNull).
Proof.
  split.
  { intros g Hfence. split; [by apply extract_content_fence|].
    by apply re_json_fence_sound. }
  split.
  { intros Hnone pre mid post -> Hpre Hpost.
    rewrite (extract_content_fallback _ Hnone).
    by rewrite (re_braces_widest pre mid post Hpre Hpost). }
  split.
  { intros Hnone Hspan. rewrite (extract_content_fallback _ Hnone).
    destruct (re_braces block) as [g|] eqn:E; [|done].
    apply re_braces_sound in E as (pre & mid & post & -> & _).
    by destruct (Hspan pre mid post). }
  intros ->.
  assert (Hextract : extract_content bare_block = not_found_object)
    by (vm_compute; reflexivity).
  split; [exact Hextract|].
  intros args w response data Hab Hkey Hnet Hok Hjson Hcontent.
  assert (Hparse : JSON_parse (extract_content bare_block)
                   = Some (VObject [ (js "name", VNull);
                                     (js "description", VNull);
                                     (js "features", VNull);
                                     (js "parking", VNull) ]))
    by (vm_compute; reflexivity).
  destruct (fetcher_record args w response data bare_block _
              Hab Hkey Hnet Hok Hjson Hcontent Hparse)
    as (record & _ & _ & Hres & Hother & _).
  exists record. split; [exact Hres|].
  repeat split; rewrite Hother; done.
Qed.

Lemma extraction_fence_then_brace_span_witness :
  let args := sample_args (Some live_signal) in
  let w := sample_world sample_key (Return (ok_response bare_block)) in
  (re_json_fence fenced_block = Some sunset_object
   /\ re_json_fence bare_block = None
   /\ (lbrace ∉ js "Here you go: ")
   /\ (rbrace ∉ @nil N))
  /\ extract_content fenced_block = sunset_object
  /\ extract_content bare_block = not_found_object
  /\ exists record,
       fst (fetchPerplexityInsights args w) = Return (Some record)
       /\ obj_get (js "name") record = Some VNull
       /\ obj_get (js "description") record = Some VNull
       /\ obj_get (js "features") record = Some VNull
       /\ obj_get (js "parking") record = Some VNull.
Proof.
  intros args w.
  assert (Hfence : re_json_fence fenced_block = Some sunset_object)
    by (vm_compute; reflexivity).
  assert (Hnone : re_json_fence bare_block = None)
    by (vm_compute; reflexivity).
  assert (Hpre : lbrace ∉ (js "Here you go: ")).
  { intros H%list_elem_of_In. vm_compute in H. intuition discriminate. }
  assert (Hpost : rbrace ∉ @nil N) by apply not_elem_of_nil.
  split; [auto|].
  split; [exact (proj1 (proj1 (extraction_fence_then_brace_span fenced_block)
                          sunset_object Hfence))|].
  destruct (extraction_fence_then_brace_span bare_block)
    as (_ & Hspan & _ & Hexample).
  split.
  - exact (Hspan Hnone (js "Here you go: ")
             (jsq "'name':null,'description':null,'features':null,'parking':null")
             [] eq_refl Hpre Hpost).
  - destruct (Hexample eq_refl) as [_ Hrecord].
    apply (Hrecord args w (ok_response bare_block) (envelope bare_block));
      vm_compute; reflexivity.
Defined.

(** C6, as the claim words it, fails: when a second pair of braces follows
    the object, the first top-level brace-delimited object is not what the
    fallback extracts, and the fetcher fails where the claim has it return
    the record. *)
Lemma fallback_is_not_first_object :
  let args := sample_args (Some live_signal) in
  let w := sample_world sample_key (Return (ok_response two_braces_block)) in
  re_json_fence two_braces_block = None
  /\ spec_first_top_level_object two_braces_block = Some not_found_object
  /\ spec_extract_content two_braces_block = not_found_object
  /\ extract_content two_braces_block
     = not_found_object ++ js " (no playground at {address}"
  /\ extract_content two_braces_block <> spec_extract_content two_braces_block
  /\ fst (fetchPerplexityInsights args w) = Throw SyntaxError.
Proof.
  intros args w.
  repeat split; try (vm_compute; reflexivity).
  vm_compute. discriminate.
Qed.

(** * Further properties *)

(** ** More on the fetcher *)

Lemma is_aborted_mono (s : option AbortSignal) (w w' : World) :
  (now w <= now w')%nat -> is_aborted s w = true -> is_aborted s w' = true.
Proof.
  unfold is_aborted. destruct s as [[[t|]]|]; simpl; try done.
  intros L H. apply bool_decide_eq_true in H. apply bool_decide_eq_true. lia.
Qed.

(** The world in which the fetcher ends. *)
Lemma fetcher_world (args : Args) (w : World) :
  snd (fetchPerplexityInsights args w) = w
  \/ snd (fetchPerplexityInsights args w) = after_fetch args w
  \/ snd (fetchPerplexityInsights args w) = tick (after_fetch args w).
Proof.
  destruct (is_aborted (signal args) w) eqn:Hab.
  { rewrite fetcher_cancelled by done. auto. }
  destruct (truthy (credential w)) eqn:Hkey.
  2:{ rewrite fetcher_no_credential by done. auto. }
  rewrite fetcher_sent by done.
  repeat match goal with
         | |- context [match ?x with _ => _ end] => destruct x
         end; simpl; auto.
Qed.

Lemma get_member_throws (v : value) (k : jsstring) (e : exn) :
  get_member v k = Throw e -> e = TypeError.
Proof. destruct v; simpl; intros H; by inversion H. Qed.

Lemma envelope_content_throws (data : value) (e : exn) :
  envelope_content data = Throw e -> e = TypeError.
Proof.
  unfold envelope_content, result_bind.
  repeat match goal with
         | |- context [match get_member ?v ?k with _ => _ end] =>
             let E := fresh "E" in
             destruct (get_member v k) eqn:E;
             [|apply get_member_throws in E as ->; by intros [= <-]]
         end.
  apply get_member_throws.
Qed.

(** X1: whatever the input and whatever the network answers, the fetcher
    never touches the cache: it adds at most one event to the log, the
    network call of its request, it leaves cache and environment as they
    were, and its result does not depend on what the cache holds. *)
Theorem fetcher_io_footprint (args : Args) (w : World) :
  let w' := snd (fetchPerplexityInsights args w) in
  (trace w' = trace w
   \/ trace w' = trace w ++ [NetworkCall (request_sent args w)])
  /\ cache w' = cache w
  /\ env w' = env w
  /\ forall addr record,
       fst (fetchPerplexityInsights args (store addr record w))
       = fst (fetchPerplexityInsights args w).
Proof.
  split.
  { destruct (fetcher_world args w) as [-> | [-> | ->]]; simpl; auto. }
  split.
  { destruct (fetcher_world args w) as [-> | [-> | ->]]; done. }
  split.
  { destruct (fetcher_world args w) as [-> | [-> | ->]]; done. }
  intros addr record.
  destruct (is_aborted (signal args) w) eqn:Hab.
  { rewrite !fetcher_cancelled; done. }
  destruct (truthy (credential w)) eqn:Hkey.
  2:{ rewrite !fetcher_no_credential; done. }
  rewrite !fetcher_sent by done.
  change (network (store addr record w)) with (network w).
  change (now (store addr record w)) with (now w).
  change (request_sent args (store addr record w)) with (request_sent args w).
  repeat match goal with
         | |- context [match ?x with _ => _ end] => destruct x
         end; done.
Qed.

(** X2: the fetcher returns null exactly when the signal is already
    aborted at entry; a fetch that starts with a live signal ends with a
    record or with an exception, never with null. *)
Theorem fetcher_null_iff_cancelled (args : Args) (w : World) :
  fst (fetchPerplexityInsights args w) = Return None
  <-> is_aborted (signal args) w = true.
Proof.
  split.
  - intros Hnull. destruct (is_aborted (signal args) w) eqn:Hab; [done|].
    exfalso. revert Hnull.
    destruct (truthy (credential w)) eqn:Hkey.
    2:{ by rewrite fetcher_no_credential. }
    rewrite fetcher_sent by done.
    repeat match goal with
           | |- context [match ?x with _ => _ end] => destruct x
           end; done.
  - intros Hab. by rewrite fetcher_cancelled.
Qed.

(** How the fetcher can end. *)
Lemma fetcher_outcomes (args : Args) (w : World) :
  fetchPerplexityInsights args w = (Return None, w)
  \/ (exists e, fetchPerplexityInsights args w = (Throw e, w))
  \/ (exists e, fetchPerplexityInsights args w = (Throw e, after_fetch args w))
  \/ (exists e, fetchPerplexityInsights args w
                = (Throw e, tick (after_fetch args w)))
  \/ (exists record, fetchPerplexityInsights args w
                     = (Return (Some record), tick (after_fetch args w))).
Proof.
  destruct (is_aborted (signal args) w) eqn:Hab.
  { rewrite fetcher_cancelled by done. auto. }
  destruct (truthy (credential w)) eqn:Hkey.
  2:{ rewrite fetcher_no_credential by done. eauto. }
  rewrite fetcher_sent by done.
  repeat match goal with
         | |- context [match ?x with _ => _ end] => destruct x
         end; eauto 10.
Qed.

(** X3: the fetcher makes its network call, once, exactly when the signal
    is not aborted at entry and the credential is a non-empty string;
    otherwise it performs no input or output at all. *)
Theorem fetcher_calls_network_iff (args : Args) (w : World) :
  let w' := snd (fetchPerplexityInsights args w) in
  (is_aborted (signal args) w = false /\ truthy (credential w) = true ->
   network_calls (trace w')
   = network_calls (trace w) ++ [request_sent args w])
  /\ (is_aborted (signal args) w = true \/ truthy (credential w) = false ->
      trace w' = trace w).
Proof.
  split.
  - intros [Hab Hkey]. rewrite fetcher_sent by done.
    repeat match goal with
           | |- context [match ?x with _ => _ end] => destruct x
           end; simpl; by rewrite network_calls_app.
  - intros Hcase.
    destruct (is_aborted (signal args) w) eqn:Hab.
    { by rewrite fetcher_cancelled. }
    destruct Hcase as [|Hkey]; [done|]. by rewrite fetcher_no_credential.
Qed.

(** ** More on the wrapper *)

Lemma wrapper_cases (args : Args) (w : World) :
  (is_aborted (signal args) w = true
   /\ fetchPerplexityInsightsWithCache args w = (Return None, w))
  \/ (is_aborted (signal args) w = false
      /\ exists cached,
           cache w !! address args = Some cached
           /\ fetchPerplexityInsightsWithCache args w
              = (Return (Some cached), after_lookup args w))
  \/ (is_aborted (signal args) w = false
      /\ cache w !! address args = None
      /\ fetchPerplexityInsightsWithCache args w
         = settle args (fetchPerplexityInsights args (after_lookup args w))).
Proof.
  destruct (is_aborted (signal args) w) eqn:Hab.
  { left. split; [done|]. by apply wrapper_cancelled. }
  right. destruct (cache w !! address args) as [cached|] eqn:Hc.
  - left. split; [done|]. exists cached. split; [done|]. by apply wrapper_hit.
  - right. split; [done|]. split; [done|]. by apply wrapper_miss.
Qed.

(** X16: the wrapper returns null only under cancellation: whenever it
    returns null, the signal is aborted by the time it returns. *)
Theorem wrapper_null_means_cancelled (args : Args) (w : World) :
  fst (fetchPerplexityInsightsWithCache args w) = Return None ->
  is_aborted (signal args) (snd (fetchPerplexityInsightsWithCache args w))
  = true.
Proof.
  destruct (wrapper_cases args w)
    as [[Hab ->] | [(Hab & cached & Hc & ->) | (Hab & Hc & ->)]];
    [done | done |].
  pose proof (fetcher_null_iff_cancelled args (after_lookup args w)) as Hnull.
  pose proof (fetcher_world args (after_lookup args w)) as Hworld.
  destruct (fetchPerplexityInsights args (after_lookup args w))
    as [[fresh|e] w2]; simpl in *; [|done].
  destruct (is_aborted (signal args) (tick w2)) eqn:Hlate; [done|].
  destruct fresh as [record|]; [done|]. intros _.
  apply (is_aborted_mono _ (after_lookup args w)).
  - destruct Hworld as [-> | [-> | ->]]; simpl; lia.
  - by apply Hnull.
Qed.

Lemma wrapper_null_means_cancelled_witness :
  let args := sample_args (Some signal_aborted_during_fetch) in
  let w := sample_world sample_key (Return (ok_response fenced_block)) in
  fst (fetchPerplexityInsightsWithCache args w) = Return None
  /\ is_aborted (signal args) w = false
  /\ is_aborted (signal args) (snd (fetchPerplexityInsightsWithCache args w))
     = true.
Proof.
  intros args w.
  assert (Hnull : fst (fetchPerplexityInsightsWithCache args w) = Return None)
    by (vm_compute; reflexivity).
  split; [exact Hnull|]. split; [reflexivity|].
  exact (wrapper_null_means_cancelled args w Hnull).
Defined.

(** X13: the wrapper changes the cache in one way only: after a miss, by
    storing under the address the record that it returns.  In every other
    case (cancellation, hit, failure, null) the cache is as it was. *)
Theorem wrapper_cache_effect (args : Args) (w : World) :
  let w' := snd (fetchPerplexityInsightsWithCache args w) in
  cache w' = cache w
  \/ exists record,
       fst (fetchPerplexityInsightsWithCache args w) = Return (Some record)
       /\ cache w !! address args = None
       /\ cache w' = <[address args := record]> (cache w).
Proof.
  destruct (wrapper_cases args w)
    as [[Hab ->] | [(Hab & cached & Hc & ->) | (Hab & Hc & ->)]];
    [by left | by left |].
  pose proof (fetcher_footprint args (after_lookup args w)) as [Hcache _].
  destruct (fetchPerplexityInsights args (after_lookup args w))
    as [[fresh|e] w2]; simpl in *; [|by left].
  destruct (is_aborted (signal args) (tick w2)); [by left|].
  destruct fresh as [record|]; [|by left].
  right. exists record. simpl. by rewrite Hcache.
Qed.

(** X14: whenever the wrapper returns a record, from the cache or from
    the network, the cache holds that record under the address
    afterwards. *)
Theorem wrapper_result_is_cached
  (args : Args) (w : World) (record : jsobject) :
  fst (fetchPerplexityInsightsWithCache args w) = Return (Some record) ->
  cache (snd (fetchPerplexityInsightsWithCache args w)) !! address args
  = Some record.
Proof.
  intros Hres.
  destruct (wrapper_cases args w)
    as [[Hab E] | [(Hab & cached & Hc & E) | (Hab & Hc & E)]];
    rewrite E in *; simpl in *; [done | congruence |].
  destruct (fetchPerplexityInsights args (after_lookup args w))
    as [[fresh|e] w2]; simpl in *; [|done].
  destruct (is_aborted (signal args) (tick w2)); [done|].
  destruct fresh as [r|]; [|done]. simpl in *.
  injection Hres as ->. apply lookup_insert_eq.
Qed.

Lemma wrapper_result_is_cached_witness :
  let args := sample_args (Some live_signal) in
  let w := sample_world sample_key (Return (ok_response fenced_block)) in
  fst (fetchPerplexityInsightsWithCache args w) = Return (Some sample_record)
  /\ cache w !! address args = None
  /\ cache (snd (fetchPerplexityInsightsWithCache args w)) !! address args
     = Some sample_record.
Proof.
  intros args w.
  assert (Hres : fst (fetchPerplexityInsightsWithCache args w)
                 = Return (Some sample_record)) by (vm_compute; reflexivity).
  split; [exact Hres|]. split; [reflexivity|].
  exact (wrapper_result_is_cached args w sample_record Hres).
Defined.

(** X15: after the wrapper has returned a record, a second invocation
    for the same address, with any name and any signal that is not aborted,
    returns the same record with a cache read as its only input or
    output. *)
Theorem wrapper_second_call_is_a_hit
  (args again : Args) (w : World) (record : jsobject) :
  fst (fetchPerplexityInsightsWithCache args w) = Return (Some record) ->
  address again = address args ->
  let w' := snd (fetchPerplexityInsightsWithCache args w) in
  is_aborted (signal again) w' = false ->
  fst (fetchPerplexityInsightsWithCache again w') = Return (Some record)
  /\ trace (snd (fetchPerplexityInsightsWithCache again w'))
     = trace w' ++ [CacheRead (address args)]
  /\ cache (snd (fetchPerplexityInsightsWithCache again w')) = cache w'.
Proof.
  intros Hres Haddr w' Hlive.
  pose proof (wrapper_result_is_cached args w record Hres) as Hcached.
  fold w' in Hcached. rewrite <- Haddr in Hcached.
  rewrite (wrapper_hit again w' record Hlive Hcached). simpl.
  by rewrite Haddr.
Qed.

Lemma wrapper_second_call_is_a_hit_witness :
  let args := sample_args (Some live_signal) in
  let again := {| address := sample_address; name := None; signal := None |} in
  let w := sample_world sample_key (Return (ok_response fenced_block)) in
  let w' := snd (fetchPerplexityInsightsWithCache args w) in
  (fst (fetchPerplexityInsightsWithCache args w) = Return (Some sample_record)
   /\ address again = address args
   /\ is_aborted (signal again) w' = false)
  /\ fst (fetchPerplexityInsightsWithCache again w')
     = Return (Some sample_record)
  /\ network_calls (trace (snd (fetchPerplexityInsightsWithCache again w')))
     = network_calls (trace w').
Proof.
  intros args again w w'.
  assert (Hres : fst (fetchPerplexityInsightsWithCache args w)
                 = Return (Some sample_record)) by (vm_compute; reflexivity).
  assert (Haddr : address again = address args) by reflexivity.
  assert (Hlive : is_aborted (signal again) w' = false) by reflexivity.
  split; [auto|].
  destruct (wrapper_second_call_is_a_hit args again w sample_record
              Hres Haddr Hlive) as (Hhit & Htrace & _).
  split; [exact Hhit|].
  fold w' in Htrace. rewrite Htrace, network_calls_app. apply app_nil_r.
Defined.

(** X12: in any invocation the wrapper adds to the log nothing, or the
    cache read, or the cache read and the network call, or the cache read,
    the network call and the cache write of the record it returns, in this
    order: it never calls the network before it has read the cache, and
    never writes without having called the network. *)
Theorem wrapper_io_order (args : Args) (w : World) :
  let a := address args in
  let w' := snd (fetchPerplexityInsightsWithCache args w) in
  let request := request_sent args (after_lookup args w) in
  trace w' = trace w
  \/ trace w' = trace w ++ [CacheRead a]
  \/ trace w' = trace w ++ [CacheRead a; NetworkCall request]
  \/ exists record,
       fst (fetchPerplexityInsightsWithCache args w) = Return (Some record)
       /\ trace w'
          = trace w ++ [CacheRead a; NetworkCall request; CacheWrite a record].
Proof.
  intros a w' request. subst w'.
  destruct (wrapper_cases args w)
    as [[Hab ->] | [(Hab & cached & Hc & ->) | (Hab & Hc & ->)]];
    [by left | by right; left |].
  destruct (fetcher_outcomes args (after_lookup args w))
    as [-> | [[e ->] | [[e ->] | [[e ->] | [record ->]]]]]; simpl.
  - right; left. by destruct (is_aborted _ (tick _)).
  - by right; left.
  - right; right; left. by rewrite <- app_assoc.
  - right; right; left. by rewrite <- app_assoc.
  - destruct (is_aborted _ (tick _)); simpl.
    + right; right; left. by rewrite <- app_assoc.
    + right; right; right. exists record. split; [done|].
      by rewrite <- !app_assoc.
Qed.

(** X17: after a miss, any exception of the fetcher (configuration,
    upstream, parse, type error or a rejection of the platform) leaves the
    wrapper unchanged, and nothing is written to the cache. *)
Theorem wrapper_propagates_failures (args : Args) (w : World) (e : exn) :
  is_aborted (signal args) w = false ->
  cache w !! address args = None ->
  fst (fetchPerplexityInsights args (after_lookup args w)) = Throw e ->
  let w' := snd (fetchPerplexityInsightsWithCache args w) in
  fst (fetchPerplexityInsightsWithCache args w) = Throw e
  /\ cache w' = cache w
  /\ cache_writes (trace w') = cache_writes (trace w).
Proof.
  intros Hab Hmiss Hthrow.
  pose proof (fetcher_footprint args (after_lookup args w)) as [Hc _].
  pose proof (fetcher_writes_nothing args (after_lookup args w)) as Hw.
  rewrite (wrapper_miss args w Hab Hmiss).
  destruct (fetchPerplexityInsights args (after_lookup args w))
    as [[fresh|e'] w2]; simpl in *; [done|].
  injection Hthrow as ->. split; [done|]. split; [done|].
  rewrite Hw, cache_writes_app. simpl. apply app_nil_r.
Qed.

Lemma wrapper_propagates_failures_witness :
  let args := sample_args (Some live_signal) in
  let aborted := Rejection (js "AbortError") (js "This operation was aborted") in
  let w := sample_world sample_key (Throw aborted) in
  (is_aborted (signal args) w = false
   /\ cache w !! address args = None
   /\ fst (fetchPerplexityInsights args (after_lookup args w)) = Throw aborted)
  /\ fst (fetchPerplexityInsightsWithCache args w) = Throw aborted
  /\ cache (snd (fetchPerplexityInsightsWithCache args w)) = cache w.
Proof.
  intros args aborted w.
  assert (Hab : is_aborted (signal args) w = false) by reflexivity.
  assert (Hmiss : cache w !! address args = None) by reflexivity.
  assert (Hthrow : fst (fetchPerplexityInsights args (after_lookup args w))
                   = Throw aborted) by (vm_compute; reflexivity).
  split; [auto|].
  destruct (wrapper_propagates_failures args w aborted Hab Hmiss Hthrow)
    as (Hres & Hcache & _).
  split; [exact Hres|exact Hcache].
Defined.

(** ** More on the matchers: which alternative wins *)

Section Priority.
Context {A : Type}.
Implicit Types (k : @cont A) (s : jsstring) (p : N -> bool).

(** Lazy [x*?] stops at the first place where the rest of the pattern
    matches. *)
Lemma star_lazy_Some_first p k s r :
  star_lazy p k s = Some r ->
  exists cs s',
    s = cs ++ s' /\ k s' = Some r
    /\ forall a b, cs = a ++ b -> b <> [] -> k (b ++ s') = None.
Proof.
  induction s as [|c s IH]; simpl.
  - destruct (k []) eqn:E; [|discriminate]. intros [= ->].
    exists [], []. split; [done|]. split; [done|].
    intros a b Hab Hb. by destruct a, b.
  - destruct (k (c :: s)) eqn:E.
    + intros [= ->]. exists [], (c :: s). split; [done|]. split; [done|].
      intros a b Hab Hb. by destruct a, b.
    + destruct (p c); [|discriminate].
      intros H. destruct (IH H) as (cs & s' & -> & Hk & Hfirst).
      exists (c :: cs), s'. split; [done|]. split; [done|].
      intros [|c' a] b Hab Hb; simpl in Hab.
      * by subst b.
      * injection Hab as <- Hcs. by apply (Hfirst a b).
Qed.

Lemma star_None p k s :
  star p k s = None ->
  forall a b, s = a ++ b -> Forall (fun c => p c = true) a -> k b = None.
Proof.
  induction s as [|c s IH]; simpl.
  - intros Hk a b Hab _. by destruct a, b.
  - intros H [|c' a] b Hab Ha; simpl in Hab.
    + subst b. destruct (p c); [|done]. by destruct (star p k s).
    + injection Hab as <- ->. apply Forall_cons in Ha as [Hc Ha].
      rewrite Hc in H. destruct (star p k (a ++ b)) eqn:E; [done|].
      by apply (IH eq_refl a b).
Qed.

(** Greedy [x*] takes as many as the rest of the pattern allows. *)
Lemma star_Some_last p k s r :
  star p k s = Some r ->
  exists cs s',
    s = cs ++ s' /\ k s' = Some r
    /\ forall a b, s' = a ++ b -> a <> [] ->
                   Forall (fun c => p c = true) a -> k b = None.
Proof.
  induction s as [|c s IH]; simpl.
  - intros Hk. exists [], []. split; [done|]. split; [done|].
    intros a b Hab Ha. by destruct a.
  - destruct (p c) eqn:Hp.
    + destruct (star p k s) as [r'|] eqn:E.
      * intros [= ->]. destruct (IH eq_refl) as (cs & s' & -> & Hk & Hlast).
        exists (c :: cs), s'. done.
      * intros Hk. exists [], (c :: s). split; [done|]. split; [done|].
        intros [|c' a] b Hab Ha Hall; [done|]. simpl in Hab.
        injection Hab as <- ->. apply Forall_cons in Hall as [_ Hall].
        by apply (star_None p k _ E a b).
    + intros Hk. exists [], (c :: s). split; [done|]. split; [done|].
      intros [|c' a] b Hab Ha Hall; [done|]. simpl in Hab.
      injection Hab as <- ->. apply Forall_cons in Hall as [Hc _]. congruence.
Qed.

(** Lazy [[\s\S]*?] finds a match whenever the rest of the pattern matches
    somewhere further on. *)
Lemma star_lazy_any_Some k t s' :
  is_Some (k s') -> is_Some (star_lazy any_char k (t ++ s')).
Proof.
  intros Hk. induction t as [|c t IH]; simpl.
  - by rewrite star_lazy_here.
  - destruct (k (c :: t ++ s')); [eauto|]. by rewrite any_char_true.
Qed.
End Priority.

(** The end of the fence pattern: white space and three backticks. *)
Lemma closing_fence_matches (g ws post : jsstring) :
  Forall (fun c => is_space c = true) ws ->
  star is_space (lit (map exactly (js "```")) (fun _ => Some g))
    (ws ++ js "```" ++ post) = Some g.
Proof.
  intros Hws.
  assert (Hlit : lit (map exactly (js "```")) (fun _ => Some g)
                   (js "```" ++ post) = Some g).
  { rewrite lit_app; [done|].
    change (map exactly (js "```")) with (exactly <$> [96; 96; 96]).
    change (js "```") with [96; 96; 96].
    apply Forall2_fmap_l. by repeat constructor. }
  rewrite star_all; [done | done | | by rewrite Hlit].
  intros c s' E. vm_compute in E. by injection E as <- _.
Qed.

Lemma closing_fence_sound (g s r : jsstring) :
  star is_space (lit (map exactly (js "```")) (fun _ => Some g)) s = Some r ->
  r = g /\ exists ws post,
    s = ws ++ js "```" ++ post /\ Forall (fun c => is_space c = true) ws.
Proof.
  intros (ws & s1 & -> & Hws & Hm)%star_Some.
  apply lit_Some in Hm as (close & post & -> & Hclose & [= <-]).
  split; [done|]. exists ws, post. split; [|done].
  change (map exactly (js "```")) with (exactly <$> [96; 96; 96]) in Hclose.
  apply Forall2_fmap_l in Hclose. unfold exactly in Hclose.
  repeat match goal with
         | H : Forall2 _ (_ :: _) _ |- _ =>
             apply Forall2_cons_inv_l in H as (? & ? & ?%N.eqb_eq & H & ->)
         | H : Forall2 _ [] _ |- _ => apply Forall2_nil_inv_l in H as ->
         end.
  by subst.
Qed.

(** X10: what the fence pattern captures never holds three backticks in a
    row, and neither starts nor ends with white space. *)
Theorem fence_capture_is_trimmed (block g : jsstring) :
  re_json_fence block = Some g ->
  ~ contains g (js "```")
  /\ (forall c t, g = c :: t -> is_space c = false)
  /\ (forall t c, g = t ++ [c] -> is_space c = false).
Proof.
  unfold re_json_fence. intros (pre & s1 & -> & Hm)%search_Some.
  apply lit_Some in Hm as (opening & s2 & -> & _ & Hm).
  apply star_Some_last in Hm as (ws1 & s3 & -> & Hm & Hlast).
  pose proof Hm as Hgroup. unfold group in Hm.
  apply star_lazy_Some_first in Hm as (cap & s4 & -> & Hm & Hfirst).
  apply closing_fence_sound in Hm as (Hg & ws2 & post & -> & Hws2).
  rewrite (take_consumed _ cap (ws2 ++ js "```" ++ post)) in Hg by done.
  subst g. repeat split.
  - intros (a & c & ->).
    specialize (Hfirst a (js "```" ++ c) eq_refl ltac:(done)).
    rewrite <- (app_assoc (js "```") c) in Hfirst.
    by rewrite (closing_fence_matches _ [] (c ++ ws2 ++ js "```" ++ post))
      in Hfirst.
  - intros c t -> . destruct (is_space c) eqn:Hc; [|done]. exfalso.
    specialize (Hlast [c] (t ++ ws2 ++ js "```" ++ post) eq_refl
                  ltac:(done) ltac:(by constructor)).
    unfold group in Hlast.
    destruct (star_lazy_any_Some
                (fun s' => star is_space
                   (lit (map exactly (js "```"))
                      (fun _ => Some
                         (take (length (t ++ ws2 ++ js "```" ++ post)
                                - length s')
                            (t ++ ws2 ++ js "```" ++ post)))) s')
                t (ws2 ++ js "```" ++ post)) as [r Hr].
    { rewrite closing_fence_matches by done. eauto. }
    by rewrite Hr in Hlast.
  - intros t c ->. destruct (is_space c) eqn:Hc; [|done]. exfalso.
    specialize (Hfirst t [c] eq_refl ltac:(done)).
    by rewrite (closing_fence_matches _ (c :: ws2) post) in Hfirst
      by (by constructor).
Qed.

Lemma fence_capture_is_trimmed_witness :
  re_json_fence fenced_block = Some sunset_object
  /\ ~ contains sunset_object (js "```").
Proof.
  assert (Hfence : re_json_fence fenced_block = Some sunset_object)
    by (vm_compute; reflexivity).
  split; [exact Hfence|].
  exact (proj1 (fence_capture_is_trimmed fenced_block sunset_object Hfence)).
Defined.

(** ** More on successful responses *)

(** Whatever valid JSON the extraction yields, the fetcher spreads it and
    adds the citations and images of the envelope. *)
Lemma fetcher_parsed
  (args : Args) (w : World) (response : Response)
  (data : value) (block : jsstring) (parsed_content : value) :
  is_aborted (signal args) w = false ->
  truthy (credential w) = true ->
  network w (now w) (request_sent args w) = Return response ->
  ok response = true ->
  json response = Return data ->
  envelope_content data = Return (VString block) ->
  JSON_parse (extract_content block) = Some parsed_content ->
  exists citations images,
    get_member data (js "citations") = Return citations
    /\ get_member data (js "images") = Return images
    /\ fetchPerplexityInsights args w
       = (Return (Some (obj_set (js "images") images
                          (obj_set (js "sources") citations
                             (spread parsed_content)))),
          tick (after_fetch args w)).
Proof.
  intros Hab Hkey Hnet Hok Hjson Hcontent Hparse.
  destruct (envelope_content_members data _ (js "citations") Hcontent)
    as [citations Hcit].
  destruct (envelope_content_members data _ (js "images") Hcontent)
    as [images Himg].
  exists citations, images. split; [done|]. split; [done|].
  rewrite (fetcher_sent args w Hab Hkey), Hnet, Hok, Hjson, Hcontent.
  by rewrite Hparse, Hcit, Himg.
Qed.

(** X7: the fetcher returns a record only if the signal was live, the
    credential present, the response successful, its content a string and
    the extracted text valid JSON; the record is then the spread of the
    parsed value with [sources] and [images] set to the citations and
    images of the envelope, whatever the parsed value held under those
    keys. *)
Theorem fetcher_success_inversion
  (args : Args) (w : World) (record : jsobject) :
  fst (fetchPerplexityInsights args w) = Return (Some record) ->
  is_aborted (signal args) w = false
  /\ truthy (credential w) = true
  /\ exists response data block parsed_content citations images,
       network w (now w) (request_sent args w) = Return response
       /\ ok response = true
       /\ json response = Return data
       /\ envelope_content data = Return (VString block)
       /\ JSON_parse (extract_content block) = Some parsed_content
       /\ get_member data (js "citations") = Return citations
       /\ get_member data (js "images") = Return images
       /\ record = obj_set (js "images") images
                     (obj_set (js "sources") citations
                        (spread parsed_content))
       /\ obj_get (js "sources") record = Some citations
       /\ obj_get (js "images") record = Some images.
Proof.
  intros Hres.
  destruct (is_aborted (signal args) w) eqn:Hab.
  { by rewrite fetcher_cancelled in Hres. }
  destruct (truthy (credential w)) eqn:Hkey.
  2:{ by rewrite fetcher_no_credential in Hres. }
  split; [done|]. split; [done|].
  rewrite fetcher_sent in Hres by done.
  destruct (network w (now w) (request_sent args w)) as [response|]
    eqn:Hnet; [|done].
  destruct (ok response) eqn:Hok; [|done].
  destruct (json response) as [data|] eqn:Hjson; [|done].
  destruct (envelope_content data) as [[| | | |block| |]|] eqn:Hcontent;
    try done.
  destruct (JSON_parse (extract_content block)) as [parsed_content|]
    eqn:Hparse; [|done].
  destruct (get_member data (js "citations")) as [citations|] eqn:Hcit;
    [|done].
  destruct (get_member data (js "images")) as [images|] eqn:Himg; [|done].
  simpl in Hres. injection Hres as <-.
  exists response, data, block, parsed_content, citations, images.
  repeat split; try done.
  - by rewrite obj_get_set_ne, obj_get_set_eq.
  - by rewrite obj_get_set_eq.
Qed.

Lemma fetcher_success_inversion_witness :
  let args := sample_args (Some live_signal) in
  let w := sample_world sample_key (Return (ok_response fenced_block)) in
  fst (fetchPerplexityInsights args w) = Return (Some sample_record)
  /\ is_aborted (signal args) w = false
  /\ truthy (credential w) = true
  /\ obj_get (js "sources") sample_record = Some sample_citations.
Proof.
  intros args w.
  assert (Hres : fst (fetchPerplexityInsights args w)
                 = Return (Some sample_record)) by (vm_compute; reflexivity).
  split; [exact Hres|].
  destruct (fetcher_success_inversion args w sample_record Hres)
    as (Hab & Hkey & response & data & block & parsed_content & citations
        & images & Hnet & _ & Hjson & _ & _ & Hcit & _ & _ & Hsrc & _).
  split; [exact Hab|]. split; [exact Hkey|].
  injection Hnet as <-. injection Hjson as <-. injection Hcit as <-.
  exact Hsrc.
Defined.

(** X8: the answer is not checked to be an object: when the extracted text
    is the JSON [null], a boolean or a number, the fetcher returns a record
    that has [sources] and [images] and nothing else. *)
Theorem primitive_answer_record
  (args : Args) (w : World) (response : Response)
  (data : value) (block : jsstring) (parsed_content : value) :
  is_aborted (signal args) w = false ->
  truthy (credential w) = true ->
  network w (now w) (request_sent args w) = Return response ->
  ok response = true ->
  json response = Return data ->
  envelope_content data = Return (VString block) ->
  JSON_parse (extract_content block) = Some parsed_content ->
  (parsed_content = VNull
   \/ (exists b, parsed_content = VBool b)
   \/ (exists n, parsed_content = VNumber n)) ->
  exists citations images,
    get_member data (js "citations") = Return citations
    /\ get_member data (js "images") = Return images
    /\ fst (fetchPerplexityInsights args w)
       = Return (Some [ (js "sources", citations); (js "images", images) ]).
Proof.
  intros Hab Hkey Hnet Hok Hjson Hcontent Hparse Hprim.
  destruct (fetcher_parsed args w response data block parsed_content
              Hab Hkey Hnet Hok Hjson Hcontent Hparse)
    as (citations & images & Hcit & Himg & ->).
  exists citations, images. split; [done|]. split; [done|].
  by destruct Hprim as [-> | [[b ->] | [n ->]]].
Qed.

Lemma primitive_answer_record_witness :
  let args := sample_args (Some live_signal) in
  let block := js "```json null ```" in
  let w := sample_world sample_key (Return (ok_response block)) in
  (is_aborted (signal args) w = false
   /\ truthy (credential w) = true
   /\ network w (now w) (request_sent args w) = Return (ok_response block)
   /\ envelope_content (envelope block) = Return (VString block)
   /\ JSON_parse (extract_content block) = Some VNull)
  /\ fst (fetchPerplexityInsights args w)
     = Return (Some [ (js "sources", sample_citations);
                      (js "images", sample_images) ]).
Proof.
  intros args block w.
  assert (Hab : is_aborted (signal args) w = false) by reflexivity.
  assert (Hkey : truthy (credential w) = true) by (vm_compute; reflexivity).
  assert (Hnet : network w (now w) (request_sent args w)
                 = Return (ok_response block)) by reflexivity.
  assert (Hcontent : envelope_content (envelope block)
                     = Return (VString block)) by (vm_compute; reflexivity).
  assert (Hparse : JSON_parse (extract_content block) = Some VNull)
    by (vm_compute; reflexivity).
  split; [auto 10|].
  destruct (primitive_answer_record args w _ _ _ _
              Hab Hkey Hnet eq_refl eq_refl Hcontent Hparse (or_introl eq_refl))
    as (citations & images & Hcit & Himg & Hres).
  injection Hcit as <-. injection Himg as <-. exact Hres.
Defined.

(** X6: when the body of a successful response has no string at
    [choices[0].message.content], the fetcher fails with a TypeError, not
    with a parse error. *)
Theorem malformed_envelope_type_error
  (args : Args) (w : World) (response : Response) (data : value) :
  is_aborted (signal args) w = false ->
  truthy (credential w) = true ->
  network w (now w) (request_sent args w) = Return response ->
  ok response = true ->
  json response = Return data ->
  (forall block, envelope_content data <> Return (VString block)) ->
  fst (fetchPerplexityInsights args w) = Throw TypeError.
Proof.
  intros Hab Hkey Hnet Hok Hjson Hshape.
  rewrite (fetcher_sent args w Hab Hkey), Hnet, Hok, Hjson.
  destruct (envelope_content data) as [v|e] eqn:Hcontent.
  - destruct v; try done. by destruct (Hshape s).
  - by apply envelope_content_throws in Hcontent as ->.
Qed.

Lemma malformed_envelope_type_error_witness :
  let args := sample_args (Some live_signal) in
  let data := VObject [(js "choices", VArray [])] in
  let response := {| ok := true; statusText := js "OK"; json := Return data |} in
  let w := sample_world sample_key (Return response) in
  (is_aborted (signal args) w = false
   /\ truthy (credential w) = true
   /\ network w (now w) (request_sent args w) = Return response
   /\ envelope_content data = Throw TypeError)
  /\ fst (fetchPerplexityInsights args w) = Throw TypeError.
Proof.
  intros args data response w.
  assert (Hab : is_aborted (signal args) w = false) by reflexivity.
  assert (Hkey : truthy (credential w) = true) by (vm_compute; reflexivity).
  assert (Hnet : network w (now w) (request_sent args w) = Return response)
    by reflexivity.
  assert (Hcontent : envelope_content data = Throw TypeError)
    by (vm_compute; reflexivity).
  split; [auto|].
  apply (malformed_envelope_type_error args w response data
           Hab Hkey Hnet eq_refl eq_refl).
  intros block. rewrite Hcontent. discriminate.
Defined.

(** X5: when [fetch] rejects, or when [response.json()] of a successful
    response rejects, the fetcher fails with that very reason, after its
    one network call. *)
Theorem platform_rejections_surface
  (args : Args) (w : World) (e : exn) :
  is_aborted (signal args) w = false ->
  truthy (credential w) = true ->
  network w (now w) (request_sent args w) = Throw e
  \/ (exists response,
        network w (now w) (request_sent args w) = Return response
        /\ ok response = true /\ json response = Throw e) ->
  fst (fetchPerplexityInsights args w) = Throw e
  /\ network_calls (trace (snd (fetchPerplexityInsights args w)))
     = network_calls (trace w) ++ [request_sent args w].
Proof.
  intros Hab Hkey Hcase. rewrite (fetcher_sent args w Hab Hkey).
  destruct Hcase as [-> | (response & -> & -> & ->)]; simpl;
    rewrite network_calls_app; done.
Qed.

Lemma platform_rejections_surface_witness :
  let args := sample_args (Some live_signal) in
  let offline := Rejection (js "TypeError") (js "fetch failed") in
  let w := sample_world sample_key (Throw offline) in
  (is_aborted (signal args) w = false
   /\ truthy (credential w) = true
   /\ network w (now w) (request_sent args w) = Throw offline)
  /\ fst (fetchPerplexityInsights args w) = Throw offline.
Proof.
  intros args offline w.
  assert (Hab : is_aborted (signal args) w = false) by reflexivity.
  assert (Hkey : truthy (credential w) = true) by (vm_compute; reflexivity).
  assert (Hnet : network w (now w) (request_sent args w) = Throw offline)
    by reflexivity.
  split; [auto|].
  exact (proj1 (platform_rejections_surface args w offline Hab Hkey
                  (or_introl Hnet))).
Defined.

(** X4: a credential that is set to the empty string counts as missing:
    the fetcher fails with the configuration error and the world is as it
    was. *)
Theorem empty_credential_is_missing (args : Args) (w : World) :
  is_aborted (signal args) w = false ->
  credential w = Some [] ->
  fetchPerplexityInsights args w = (Throw (Error api_key_missing), w).
Proof.
  intros Hab Hkey. apply fetcher_no_credential; [done|]. by rewrite Hkey.
Qed.

Lemma empty_credential_is_missing_witness :
  let args := sample_args None in
  let w := sample_world (Some []) (Return (ok_response fenced_block)) in
  is_aborted (signal args) w = false /\ credential w = Some []
  /\ fetchPerplexityInsights args w = (Throw (Error api_key_missing), w).
Proof.
  intros args w.
  assert (Hab : is_aborted (signal args) w = false) by reflexivity.
  assert (Hkey : credential w = Some []) by (vm_compute; reflexivity).
  split; [exact Hab|]. split; [exact Hkey|].
  exact (empty_credential_is_missing args w Hab Hkey).
Defined.

(** ** More on the extraction *)

(** X9: a content without backticks that is an object from its first
    opening brace to its last closing brace, alone or inside prose that has
    no opening brace before it and no closing brace after it, is extracted
    as that object, unchanged. *)
Theorem plain_object_is_extracted (pre mid post : jsstring) :
  backtick ∉ pre ++ lbrace :: mid ++ rbrace :: post ->
  lbrace ∉ pre -> rbrace ∉ post ->
  extract_content (pre ++ lbrace :: mid ++ rbrace :: post)
  = lbrace :: mid ++ [rbrace].
Proof.
  intros Hno Hpre Hpost.
  rewrite extract_content_fallback by (by apply re_json_fence_backtick).
  by rewrite re_braces_widest.
Qed.

Lemma plain_object_is_extracted_witness :
  ((backtick ∉ bare_block)
   /\ (lbrace ∉ js "Here you go: ")
   /\ (rbrace ∉ @nil N))
  /\ extract_content bare_block = not_found_object.
Proof.
  assert (Hno : backtick ∉ bare_block)
    by (apply (bool_decide_unpack _); vm_compute; exact I).
  assert (Hpre : lbrace ∉ js "Here you go: ")
    by (apply (bool_decide_unpack _); vm_compute; exact I).
  assert (Hpost : rbrace ∉ @nil N) by apply not_elem_of_nil.
  split; [auto|].
  exact (plain_object_is_extracted (js "Here you go: ")
           (jsq "'name':null,'description':null,'features':null,'parking':null")
           [] Hno Hpre Hpost).
Defined.

(** ** The prompt *)

(** X11: the prompt always contains the address; with a non-empty name it
    contains the name in double quotes, after "location known as" and after
    the address; an empty name gives the prompt of no name. *)
Theorem prompt_mentions (addr : jsstring) (nm : option jsstring) :
  contains (prompt addr nm) addr
  /\ (forall n, nm = Some n -> n <> [] ->
                contains (prompt addr nm)
                  (js "location known as " ++ dquote ++ n ++ dquote)
                /\ contains (prompt addr nm)
                     (addr ++ js " (known as " ++ dquote ++ n ++ dquote
                      ++ js ")"))
  /\ prompt addr (Some []) = prompt addr None.
Proof.
  split.
  { unfold prompt, contains.
    exists (prompt_task
            ++ (if truthy nm
                then js "location known as " ++ dquote ++ default [] nm
                     ++ dquote
                else js "address")
            ++ prompt_criteria),
           ((if truthy nm
             then js " (known as " ++ dquote ++ default [] nm ++ dquote
                  ++ js ")"
             else [])
            ++ prompt_rest).
    rewrite <- !app_assoc. reflexivity. }
  split.
  2:{ unfold prompt. cbn [truthy]. reflexivity. }
  intros n -> Hn. unfold prompt, contains.
  assert (Ht : truthy (Some n) = true) by (destruct n; [congruence|reflexivity]).
  rewrite Ht. cbn [default from_option]. split.
  - exists prompt_task,
           (prompt_criteria ++ addr
            ++ (js " (known as " ++ dquote ++ n ++ dquote ++ js ")")
            ++ prompt_rest).
    rewrite <- !app_assoc. reflexivity.
  - exists (prompt_task
            ++ (js "location known as " ++ dquote ++ n ++ dquote)
            ++ prompt_criteria), prompt_rest.
    rewrite <- !app_assoc. reflexivity.
Qed.

Lemma prompt_mentions_witness :
  contains (prompt sample_address (Some (js "Sunset Park")))
    (js "location known as " ++ dquote ++ js "Sunset Park" ++ dquote)
  /\ contains (prompt sample_address (Some (js "Sunset Park"))) sample_address.
Proof.
  destruct (prompt_mentions sample_address (Some (js "Sunset Park")))
    as (Haddr & Hname & _).
  split; [|exact Haddr].
  apply (Hname (js "Sunset Park") eq_refl). vm_compute. discriminate.
Defined.

(** ** The debounce hook *)

Section DebounceProperties.
Context {F A : Type}.
Implicit Types (h : Hook F A) (t : Timer F A).

Lemma run_due_idle h :
  timers h = [] -> timers (run_due h) = [] /\ calls (run_due h) = calls h.
Proof. unfold run_due. simpl. intros ->. by rewrite app_nil_r. Qed.



Lemma advance_S dt h : advance (S dt) h = millisecond (advance dt h).
Proof. reflexivity. Qed.

Lemma advance_frame dt h :
  clock (advance dt h) = (clock h + dt)%nat
  /\ timerRef (advance dt h) = timerRef h
  /\ next_timer (advance dt h) = next_timer h.
Proof.
  induction dt as [|dt (IHc & IHr & IHn)].
  - simpl. by rewrite Nat.add_0_r.
  - rewrite advance_S. unfold millisecond, run_due. simpl.
    rewrite IHc, IHr, IHn. split; [lia|done].
Qed.

Lemma advance_idle dt h :
  timers h = [] ->
  timers (advance dt h) = [] /\ calls (advance dt h) = calls h.
Proof.
  intros Hidle. induction dt as [|dt [IHt IHc]].
  - by apply run_due_idle.
  - rewrite advance_S. unfold millisecond.
    match goal with |- context [run_due ?x] =>
      destruct (run_due_idle x IHt) as [-> ->] end.
    done.
Qed.


(** What a call of the debounced function leaves behind. *)
Lemma debounced_state fn delay args h :
  one_pending h ->
  timers (debounced fn delay args h)
  = [ {| timer_id := next_timer h; due := (clock h + delay)%nat;
         callback := (fn, args) |} ]
  /\ timerRef (debounced fn delay args h) = Some (next_timer h)
  /\ calls (debounced fn delay args h) = calls h
  /\ clock (debounced fn delay args h) = clock h.
Proof.
  intros [Hidle | (t & Ht & Href)]; unfold debounced.
  - destruct (timerRef h); simpl; by rewrite Hidle.
  - rewrite Href. simpl. rewrite Ht.
    by rewrite filter_cons_False, filter_nil by (intros H; by apply H).
Qed.

Lemma unmount_state h :
  one_pending h ->
  timers (unmount h) = [] /\ calls (unmount h) = calls h
  /\ clock (unmount h) = clock h.
Proof.
  intros [Hidle | (t & Ht & Href)]; unfold unmount.
  - destruct (timerRef h); simpl; by rewrite Hidle.
  - rewrite Href. simpl. rewrite Ht.
    by rewrite filter_cons_False, filter_nil by (intros H; by apply H).
Qed.

Lemma one_pending_event (e : HookEvent F A) h :
  one_pending h -> one_pending (hook_event e h).
Proof.
  intros Hinv. destruct e as [fn delay args|dt|]; simpl.
  - destruct (debounced_state fn delay args h Hinv) as (Ht & Hr & _).
    right. eexists. split; [exact Ht|]. by rewrite Hr.
  - destruct (advance_frame dt h) as (_ & Hr & _).
    destruct Hinv as [Hidle | (t & Ht & Href)].
    + left. by apply advance_idle.
    + (* the timer may be overdue or not *)
      unfold one_pending. rewrite Hr.
      clear Hr. revert Ht Href. generalize (timerRef h). intros r Ht Href.
      induction dt as [|dt IH].
      * simpl. rewrite Ht.
        destruct (decide (due t <= clock h)%nat).
        -- left. by rewrite filter_cons_False, filter_nil
             by (intros H; by apply H).
        -- right. exists t. by rewrite filter_cons_True, filter_nil.
      * rewrite advance_S. unfold millisecond, run_due. simpl.
        destruct IH as [-> | (t' & -> & ->)]; [by left|].
        destruct (decide (due t' <= S (clock (advance dt h)))%nat).
        -- left. by rewrite filter_cons_False, filter_nil
             by (intros H; by apply H).
        -- right. exists t'. by rewrite filter_cons_True, filter_nil.
  - left. by apply unmount_state.
Qed.

Lemma one_pending_run (es : list (HookEvent F A)) h :
  one_pending h -> one_pending (hook_run es h).
Proof.
  revert h. induction es as [|e es IH]; intros h Hinv; [done|].
  simpl. by apply IH, one_pending_event.
Qed.

(** X18: whatever calls, waits and unmounts a hook has gone through, at
    most one of its timers is pending, and [timerRef] holds its handle. *)
Theorem debounce_keeps_one_timer (es : list (HookEvent F A)) :
  one_pending (hook_run es mount)
  /\ (length (timers (hook_run es mount)) <= 1)%nat.
Proof.
  assert (Hinv : one_pending (hook_run es (@mount F A))).
  { apply one_pending_run. by left. }
  split; [done|]. destruct Hinv as [-> | (t & -> & _)]; simpl; lia.
Qed.





(** X21: after the component unmounts, no call that was made before is
    ever delivered to [fn], however long one waits. *)
Theorem unmount_cancels (es : list (HookEvent F A)) (dt : nat) :
  let h := hook_run es mount in
  timers (advance dt (unmount h)) = []
  /\ calls (advance dt (unmount h)) = calls h.
Proof.
  intros h.
  destruct (unmount_state h) as (Ht & Hc & _).
  { apply one_pending_run. by left. }
  destruct (advance_idle dt (unmount h) Ht) as [-> ->]. done.
Qed.
End DebounceProperties.



(** ** The page metadata *)

Lemma or_default_nonempty (s : option jsstring) (d : jsstring) :
  d <> [] -> or_default s d <> [].
Proof. intros Hd. by destruct s as [[|c t]|]. Qed.

(** X22: the metadata of a page, found or not, has a non-empty title
    that ends with the site name after a bar and a non-empty description;
    the Open Graph part is present exactly when the playground was found,
    and carries the same title and description. *)
Theorem metadata_is_never_empty
  (SITE_NAME SITE_URL UNNAMED_PLAYGROUND id : jsstring)
  (found : option Playground) :
  exists m,
    generateMetadata SITE_NAME SITE_URL UNNAMED_PLAYGROUND id (Return found)
    = Return m
    /\ title m <> []
    /\ description m <> []
    /\ ends_with (title m) (js " | " ++ SITE_NAME)
    /\ (found = None <-> openGraph m = None)
    /\ forall og, openGraph m = Some og ->
         og_title og = title m /\ og_description og = description m.
Proof.
  destruct found as [playground|]; simpl; eexists; (split; [reflexivity|]);
    cbn [title description openGraph].
  - split; [by destruct (display_name _ playground)|].
    split.
    { apply or_default_nonempty. discriminate. }
    split; [by exists (display_name UNNAMED_PLAYGROUND playground)|].
    split; [split; discriminate|].
    by intros og [= <-].
  - split; [discriminate|]. split; [discriminate|].
    split; [by exists (js "Playground Not Found")|].
    split; [done|]. discriminate.
Qed.

